(** * WhileLang runtime (runtime.c): compound-value primitives

    A shallow embedding of the seven entry points of
    [src/whilelang/runtime/runtime.c] -- [intcmp], [intcpy], [intfill],
    [objcmp], [objcpy], [objfill] and [assertion] -- over a word-addressed
    heap, followed by the properties of the runtime's specification.

    Conventions of the embedding:
    - the heap maps the byte address of an [int64_t] slot to its contents;
      [p[j]] for [int64_t *p] is the slot at [p + 8 * j];
    - an access to a slot that is not allocated, a read of a slot that was
      allocated but never written, and a signed overflow of an [int] or
      [int64_t] computation are undefined behaviour in C: the embedding
      stops with [Fault];
    - [malloc] always succeeds and returns a block above every allocated
      slot (the source never tests its result);
    - recursion in [objcmp] is bounded by a depth argument; running out of
      it is the outcome [OutOfFuel]. *)

From Stdlib Require Import ZArith Lia String.
From stdpp Require Import base gmap list list_numbers fin_maps.

Local Open Scope Z_scope.

(** ** Machine model *)

Inductive cell : Type :=
  | Undef            (* allocated, never written *)
  | Word (v : Z).    (* an int64_t value *)

Abbreviation heap := (gmap Z cell).

Inductive outcome (A : Type) : Type :=
  | Val (a : A)
  | Fault                     (* undefined behaviour *)
  | Abort (diag : string)     (* abort() raised by a failed assert *)
  | OutOfFuel.
Arguments Val {A} a.
Arguments Fault {A}.
Arguments Abort {A} diag.
Arguments OutOfFuel {A}.

(** Computations of the runtime: a heap goes in, an outcome with the
    heap after the call comes out. *)
Definition M (A : Type) : Type := heap -> outcome (A * heap).

Definition ret {A} (a : A) : M A := fun h => Val (a, h).

Definition bind {A B} (m : M A) (k : A -> M B) : M B :=
  fun h =>
    match m h with
    | Val (a, h') => k a h'
    | Fault => Fault
    | Abort d => Abort d
    | OutOfFuel => OutOfFuel
    end.

Notation "x <- m ;; k" := (bind m (fun x => k))
  (at level 100, m at next level, right associativity).
Notation "m ;;; k" := (bind m (fun _ => k))
  (at level 100, right associativity).

Definition fault {A} : M A := fun _ => Fault.
Definition out_of_fuel {A} : M A := fun _ => OutOfFuel.

(** [sizeof(int64_t)] and the address of [p[j]]. *)
Definition WORD : Z := 8.
Definition idx (p j : Z) : Z := p + WORD * j.

(** [*a] as an rvalue. *)
Definition load (a : Z) : M Z :=
  fun h =>
    match h !! a with
    | Some (Word v) => Val (v, h)
    | _ => Fault
    end.

(** [*a = v]. *)
Definition store (a v : Z) : M unit :=
  fun h =>
    match h !! a with
    | Some _ => Val (tt, <[a := Word v]> h)
    | None => Fault
    end.

(** Ranges of the C types involved. *)
Definition INT_MAX : Z := 2147483647.
Definition INT_MIN : Z := -2147483648.
Definition INT64_MAX : Z := 9223372036854775807.
Definition INT64_MIN : Z := -9223372036854775808.
Definition SIZE_MODULUS : Z := 18446744073709551616.

Definition in_int (z : Z) : bool := (INT_MIN <=? z) && (z <=? INT_MAX).
Definition in_int64 (z : Z) : bool := (INT64_MIN <=? z) && (z <=? INT64_MAX).

(** Arithmetic on [int]: signed overflow is undefined. *)
Definition int_add (a b : Z) : M Z :=
  if in_int (a + b) then ret (a + b) else fault.

(** Arithmetic on [int64_t]. *)
Definition i64_add (a b : Z) : M Z :=
  if in_int64 (a + b) then ret (a + b) else fault.
Definition i64_mul (a b : Z) : M Z :=
  if in_int64 (a * b) then ret (a * b) else fault.

(** [sizeof(int64_t) * n]: [n] is converted to [size_t], the product
    wraps. *)
Definition size_of_words (n : Z) : Z := (WORD * n) mod SIZE_MODULUS.

(** First address above every allocated slot, and never the null
    pointer. *)
Definition heap_top (h : heap) : Z :=
  map_fold (fun k _ t => Z.max t (k + WORD)) WORD h.

Fixpoint fresh_cells (w : nat) (p : Z) (h : heap) : heap :=
  match w with
  | O => h
  | S w' => <[p := Undef]> (fresh_cells w' (p + WORD) h)
  end.

(** [malloc(bytes)]: a block of [bytes / 8] slots with indeterminate
    contents. *)
Definition malloc (bytes : Z) : M Z :=
  fun h =>
    let p := heap_top h in
    Val (p, fresh_cells (Z.to_nat (bytes / WORD)) p h).

(** Iterations granted to a [for (i = 0; i < n; ...)] loop: it never
    needs more than [n] passes and one last test. *)
Definition loop_fuel (n : Z) : nat := S (Z.to_nat n).

(** ** Flat-array family *)

(** The loop of [intcmp] (lines 18-25), entered with the current [i] and
    [j]. *)
Fixpoint intcmp_loop (fuel : nat) (obj1 obj2 obj1_len i j : Z) : M Z :=
  match fuel with
  | O => out_of_fuel
  | S fuel' =>
      if i <? obj1_len then
        x <- load (idx obj1 j) ;;
        y <- load (idx obj2 j) ;;
        if negb (x =? y) then ret 0
        else
          j' <- int_add j 1 ;;
          i' <- int_add i 1 ;;
          intcmp_loop fuel' obj1 obj2 obj1_len i' j'
      else ret 1
  end.

Definition intcmp (obj1 obj2 : Z) : M Z :=
  obj1_len <- load obj1 ;;
  obj2_len <- load obj2 ;;
  if negb (obj1_len =? obj2_len) then ret 0
  else intcmp_loop (loop_fuel obj1_len) obj1 obj2 obj1_len 0 1.

(** The copy loop, the same text in [intcpy] (lines 42-44) and [objcpy]
    (lines 105-107). *)
Fixpoint copy_loop (fuel : nat) (cpy obj n i : Z) : M unit :=
  match fuel with
  | O => out_of_fuel
  | S fuel' =>
      if i <? n then
        v <- load (idx obj i) ;;
        store (idx cpy i) v ;;;
        i' <- int_add i 1 ;;
        copy_loop fuel' cpy obj n i'
      else ret tt
  end.

Definition intcpy (obj : Z) : M Z :=
  len <- load (idx obj 0) ;;
  n <- i64_add 1 len ;;
  cpy <- malloc (size_of_words n) ;;
  copy_loop (loop_fuel n) cpy obj n 0 ;;;
  ret cpy.

(** The loop of [intfill] (lines 56-58). *)
Fixpoint intfill_loop (fuel : nat) (obj payload len i j : Z) : M unit :=
  match fuel with
  | O => out_of_fuel
  | S fuel' =>
      if i <? len then
        store (idx obj j) payload ;;;
        j' <- int_add j 1 ;;
        i' <- int_add i 1 ;;
        intfill_loop fuel' obj payload len i' j'
      else ret tt
  end.

Definition intfill (obj payload : Z) : M unit :=
  len <- load (idx obj 0) ;;
  intfill_loop (loop_fuel len) obj payload len 0 1.

(** ** Tagged-object family *)

(** The chain of tests of lines 79-85 on the pair whose payload is at
    index [j]: [true] stands for [return 0], [false] for falling through
    to line 87; [rec] is the recursive call of line 83. *)
Definition objcmp_pair (rec : Z -> Z -> M Z)
    (obj1 obj2 tag1 tag2 j : Z) : M bool :=
  p1 <- load (idx obj1 j) ;;
  p2 <- load (idx obj2 j) ;;
  if p1 =? p2 then ret false
  else if negb (tag1 =? tag2) || (tag1 =? 0) then ret true
  else
    q1 <- load (idx obj1 j) ;;
    q2 <- load (idx obj2 j) ;;
    r <- rec q1 q2 ;;
    ret (r =? 0).

(** The loop of [objcmp] (lines 74-88). *)
Fixpoint objcmp_loop (rec : Z -> Z -> M Z) (fuel : nat)
    (obj1 obj2 obj1_len i j : Z) : M Z :=
  match fuel with
  | O => out_of_fuel
  | S fuel' =>
      if i <? obj1_len then
        tag1 <- load (idx obj1 j) ;;
        tag2 <- load (idx obj2 j) ;;
        j1 <- int_add j 1 ;;
        differ <- objcmp_pair rec obj1 obj2 tag1 tag2 j1 ;;
        if (differ : bool) then ret 0
        else
          j' <- int_add j1 1 ;;
          i' <- int_add i 1 ;;
          objcmp_loop rec fuel' obj1 obj2 obj1_len i' j'
      else ret 1
  end.

Fixpoint objcmp (depth : nat) (obj1 obj2 : Z) : M Z :=
  match depth with
  | O => out_of_fuel
  | S depth' =>
      obj1_len <- load obj1 ;;
      obj2_len <- load obj2 ;;
      if negb (obj1_len =? obj2_len) then ret 0
      else objcmp_loop (objcmp depth') (loop_fuel obj1_len)
             obj1 obj2 obj1_len 0 1
  end.

Definition objcpy (obj : Z) : M Z :=
  len <- load (idx obj 0) ;;
  len2 <- i64_mul len 2 ;;
  n <- i64_add 1 len2 ;;
  cpy <- malloc (size_of_words n) ;;
  copy_loop (loop_fuel n) cpy obj n 0 ;;;
  ret cpy.

(** The loop of [objfill] (lines 119-122). *)
Fixpoint objfill_loop (fuel : nat) (obj tag payload len i j : Z) : M unit :=
  match fuel with
  | O => out_of_fuel
  | S fuel' =>
      if i <? len then
        store (idx obj j) tag ;;;
        j1 <- int_add j 1 ;;
        store (idx obj j1) payload ;;;
        j' <- int_add j1 1 ;;
        i' <- int_add i 1 ;;
        objfill_loop fuel' obj tag payload len i' j'
      else ret tt
  end.

Definition objfill (obj tag payload : Z) : M unit :=
  len <- load (idx obj 0) ;;
  objfill_loop (loop_fuel len) obj tag payload len 0 1.

(** ** Assertion primitive *)


(** ** Well-formed objects *)

(** A flat array of count [n] at [a]: the header and the [n] payload
    slots hold words. *)
Definition flat_array (h : heap) (a n : Z) : Prop :=
  h !! a = Some (Word n) /\ 0 <= n /\
  forall i, 1 <= i <= n -> exists v, h !! idx a i = Some (Word v).

(** A tagged object of count [n] at [a]: the header and the [2 * n]
    slots of its (tag, payload) pairs hold words. *)
Definition tagged_object (h : heap) (a n : Z) : Prop :=
  h !! a = Some (Word n) /\ 0 <= n /\
  forall i, 1 <= i <= 2 * n -> exists v, h !! idx a i = Some (Word v).

(** What [fill] needs of its argument: the header holds the count and
    the slots are allocated, written or not. *)
Definition flat_storage (h : heap) (a n : Z) : Prop :=
  h !! a = Some (Word n) /\ 0 <= n /\
  forall i, 1 <= i <= n -> is_Some (h !! idx a i).

Definition tagged_storage (h : heap) (a n : Z) : Prop :=
  h !! a = Some (Word n) /\ 0 <= n /\
  forall i, 1 <= i <= 2 * n -> is_Some (h !! idx a i).

(** The tag and the payload of pair [t] of the object at [a]. *)
Definition pair_slots (h : heap) (a t tag p : Z) : Prop :=
  h !! idx a (2 * t + 1) = Some (Word tag) /\
  h !! idx a (2 * t + 2) = Some (Word p).

(** ** The verdict on a pair, as the specification words it *)

(** Pair [t] of [a] and [b] passes: the payloads are the same word, or
    the tags are equal and nonzero and the nested comparison [rec] of the
    payloads does not answer 0. *)
Definition pair_passes (rec : Z -> Z -> M Z) (h : heap) (a b t : Z) : Prop :=
  exists t1 p1 t2 p2,
    pair_slots h a t t1 p1 /\ pair_slots h b t t2 p2 /\
    (p1 = p2 \/
     (p1 <> p2 /\ t1 = t2 /\ t1 <> 0 /\
      exists r, rec p1 p2 h = Val (r, h) /\ r <> 0)).

(** Pair [t] fails: the payloads differ and either the tags differ or
    are 0 (no nested comparison is made), or the nested comparison
    answers 0. *)
Definition pair_fails (rec : Z -> Z -> M Z) (h : heap) (a b t : Z) : Prop :=
  exists t1 p1 t2 p2,
    pair_slots h a t t1 p1 /\ pair_slots h b t t2 p2 /\ p1 <> p2 /\
    ((t1 <> t2 \/ t1 = 0) \/
     (t1 = t2 /\ t1 <> 0 /\ rec p1 p2 h = Val (0, h))).

(** [same_shape h d a b]: within nesting depth [d], the objects at [a]
    and [b] have equal counts and, pair by pair, equal tags, equal scalars
    under tag 0 and structurally identical nested objects under a nonzero
    tag. *)
Fixpoint same_shape (h : heap) (d : nat) (a b : Z) : Prop :=
  match d with
  | O => False
  | S d' =>
      exists n,
        h !! a = Some (Word n) /\ h !! b = Some (Word n) /\ 0 <= n /\
        forall t, 0 <= t < n ->
          exists tag p1 p2,
            pair_slots h a t tag p1 /\ pair_slots h b t tag p2 /\
            (tag = 0 -> p1 = p2) /\
            (tag <> 0 -> same_shape h d' p1 p2)
  end.

(** [int_indexable h d a]: the object at [a] and, within depth [d], the
    objects nested in it take no more than [INT_MAX] words each. *)
Fixpoint int_indexable (h : heap) (d : nat) (a : Z) : Prop :=
  match d with
  | O => True
  | S d' =>
      exists n,
        h !! a = Some (Word n) /\ 1 + 2 * n <= INT_MAX /\
        forall t tag p, 0 <= t < n -> pair_slots h a t tag p -> tag <> 0 ->
          int_indexable h d' p
  end.

(** The last pair whose tag an [int] can index: its tag is word
    [INT_MAX] of the object. *)
Definition LAST_PAIR : Z := 1073741823.

(** ** Effects of a computation *)

(** A computation that, when it returns, has left the heap as it was. *)
Definition read_only {A} (m : M A) : Prop :=
  forall h a h', m h = Val (a, h') -> h' = h.

(** A computation none of whose outcomes is an abort. *)
Definition abort_free {A} (m : M A) : Prop :=
  forall h d, m h <> Abort d.

(** Lines 40-46 of [intcpy], which are lines 103-109 of [objcpy]:
    allocate [n] words, copy, return. *)
Definition clone_tail (obj n : Z) : M Z :=
  cpy <- malloc (size_of_words n) ;;
  copy_loop (loop_fuel n) cpy obj n 0 ;;;
  ret cpy.

(** ** Heaps of the examples *)

Definition words_at (p : Z) (ws : list Z) : list (Z * cell) :=
  imap (fun k w => (idx p (Z.of_nat k), Word w)) ws.

(** The heap that holds, for each [(p, ws)], the words [ws] from
    address [p] on. *)
Definition heap_of (blocks : list (Z * list Z)) : heap :=
  list_to_map (concat (map (fun b => words_at (fst b) (snd b)) blocks)).

(** The flat arrays [A = [3; 1,2,3]], [B = [3; 1,2,3]] and
    [C = [3; 1,2,4]] of the specification, at 0, 32 and 64. *)
Definition flat_A : heap := heap_of [(0, [3; 1; 2; 3])].
Definition flat_A_B_C : heap :=
  heap_of [(0, [3; 1; 2; 3]); (32, [3; 1; 2; 3]); (64, [3; 1; 2; 4])].
Definition flat_A_cloned : heap :=
  heap_of [(0, [3; 1; 2; 3]); (32, [3; 1; 2; 3])].

(** The tagged objects [[1; (0,5)]] at 0 and at 48 and [[1; (0,6)]] at
    24. *)
Definition tagged_A_B : heap := heap_of [(0, [1; 0; 5]); (24, [1; 0; 6])].
Definition tagged_A_B_A : heap :=
  heap_of [(0, [1; 0; 5]); (24, [1; 0; 6]); (48, [1; 0; 5])].

(** Two headers and nothing else. *)
Definition headers_only : heap := heap_of [(0, [3]); (32, [4])].

(** Object at 0 with one pair of tag 7 pointing to a nested object at 48,
    object at 24 with one pair of tag 7 pointing to a nested object at 72,
    the two nested objects being [[1; (0, 5)]]. *)
Definition nested_heap : heap :=
  heap_of [(0, [1; 7; 48]); (24, [1; 7; 72]);
           (48, [1; 0; 5]); (72, [1; 0; 5])].

(** ** Objects larger than [int] can index *)

(** The heap of [w] words from address [base] on, whose word [t], for
    [0 <= t < w], holds [f t]. *)
Definition tabulate (base : Z) (f : Z -> Z) (w : Z) : heap :=
  list_to_map ((fun t => (idx base t, Word (f t))) <$> seqZ 0 w).

(** A flat array of 2^31 zeros at address [HUGE_AT]. *)
Definition HUGE_AT : Z := 8.
Definition HUGE_FLAT_COUNT : Z := 2147483648.
Definition huge_flat : heap :=
  tabulate HUGE_AT (fun t => if t =? 0 then HUGE_FLAT_COUNT else 0)
           (HUGE_FLAT_COUNT + 1).

(** Two tagged objects of 2^30 pairs each, at [TWIN_A] and [TWIN_B].
    Every pair of the first is (1, [NEST_A]); every pair of the second is
    (1, [NEST_B]), except that the tag of its last pair is [last].  At
    [NEST_A] and [NEST_B] sit two empty tagged objects. *)
Definition HUGE_PAIR_COUNT : Z := 1073741824.
Definition TWIN_WORDS : Z := 2147483649.
Definition TWIN_A : Z := 8.
Definition TWIN_B : Z := 17179869200.
Definition NEST_A : Z := 34359738392.
Definition NEST_B : Z := 34359738400.

Definition twin_table (last : Z) (t : Z) : Z :=
  if t =? 0 then HUGE_PAIR_COUNT
  else if t <? TWIN_WORDS then (if Z.odd t then 1 else NEST_A)
  else if t =? TWIN_WORDS then HUGE_PAIR_COUNT
  else if t <? 2 * TWIN_WORDS then
    (if Z.odd (t - TWIN_WORDS)
     then (if t =? 2 * TWIN_WORDS - 2 then last else 1)
     else NEST_B)
  else 0.

Definition huge_twins (last : Z) : heap :=
  tabulate HUGE_AT (twin_table last) (2 * TWIN_WORDS + 2).

(** ** Further predicates and example heaps *)

(** A computation whose returned value, if any, is the C boolean 0 or
    1. *)
Definition returns_bool (m : M Z) : Prop :=
  forall h r h', m h = Val (r, h') -> r = 0 \/ r = 1.

(** Two one-pair objects, at 0 and 24, whose pair of tag 7 points back
    to the object itself. *)
Definition cyclic_heap : heap := heap_of [(0, [1; 7; 0]); (24, [1; 7; 24])].

(** Three one-pair objects at 0, 24 and 96 -- the scalar-tagged (0, 48),
    then (7, 48) and (7, 72) -- and the equal objects [[1; (0, 5)]] at 48
    and 72. *)
Definition three_objects : heap :=
  heap_of [(0, [1; 0; 48]); (24, [1; 7; 48]); (96, [1; 7; 72]);
           (48, [1; 0; 5]); (72, [1; 0; 5])].

(** Storage for two flat arrays of count 2, at 0 and 24. *)
Definition two_arrays : heap := heap_of [(0, [2; 1; 2]); (24, [2; 3; 4])].

(** Storage for two tagged objects of count 1, at 0 and 24. *)
Definition two_objects : heap := heap_of [(0, [1; 0; 5]); (24, [1; 3; 4])].

(** The flat array [[3; 1,2,4]] at 0 and, at 32, a header 3 followed by
    the two words 1 and 9 only: the third slot is not allocated. *)
Definition cut_short : heap := heap_of [(0, [3; 1; 2; 4]); (32, [3; 1; 9])].




(** * Proofs *)

(** ** Stepping through the monad *)

Lemma idx_0 p : idx p 0 = p.
Proof. unfold idx, WORD. lia. Qed.

Lemma idx_inj p i j : idx p i = idx p j -> i = j.
Proof. unfold idx, WORD. lia. Qed.

Lemma bind_val {A B} (m : M A) (k : A -> M B) h a h' :
  m h = Val (a, h') -> bind m k h = k a h'.
Proof. unfold bind. intros ->. reflexivity. Qed.

Lemma bind_fault {A B} (m : M A) (k : A -> M B) h :
  m h = Fault -> bind m k h = Fault.
Proof. unfold bind. intros ->. reflexivity. Qed.

Lemma bind_out_of_fuel {A B} (m : M A) (k : A -> M B) h :
  m h = OutOfFuel -> bind m k h = OutOfFuel.
Proof. unfold bind. intros ->. reflexivity. Qed.

Lemma bind_cong {A B} (m m' : M A) (k k' : A -> M B) h :
  m h = m' h -> (forall a h', k a h' = k' a h') -> bind m k h = bind m' k' h.
Proof.
  intros Hm Hk. unfold bind. rewrite Hm.
  destruct (m' h) as [[a h']| | |]; try reflexivity. apply Hk.
Qed.

Lemma bind_inv {A B} (m : M A) (k : A -> M B) h r :
  bind m k h = Val r -> exists a h', m h = Val (a, h') /\ k a h' = Val r.
Proof.
  unfold bind. destruct (m h) as [[a h']| | |]; try discriminate.
  intros H. exists a, h'. split; [reflexivity | exact H].
Qed.

Lemma bind_abort_inv {A B} (m : M A) (k : A -> M B) h d :
  bind m k h = Abort d ->
  m h = Abort d \/ exists a h', m h = Val (a, h') /\ k a h' = Abort d.
Proof.
  unfold bind. destruct (m h) as [[a h']| | |]; try discriminate.
  - intros H. right. exists a, h'. split; [reflexivity | exact H].
  - intros H. left. injection H as ->. reflexivity.
Qed.

Lemma load_word a v (h : heap) :
  h !! a = Some (Word v) -> load a h = Val (v, h).
Proof. unfold load. intros ->. reflexivity. Qed.

Lemma load_inv a v (h h' : heap) :
  load a h = Val (v, h') -> h !! a = Some (Word v) /\ h' = h.
Proof.
  unfold load. destruct (h !! a) as [[|w]|]; try discriminate.
  intros H. injection H as -> ->. split; reflexivity.
Qed.

Lemma store_cell a v c (h : heap) :
  h !! a = Some c -> store a v h = Val (tt, <[a := Word v]> h).
Proof. unfold store. intros ->. reflexivity. Qed.

Lemma store_inv a v u (h h' : heap) :
  store a v h = Val (u, h') -> is_Some (h !! a) /\ h' = <[a := Word v]> h.
Proof.
  unfold store. destruct (h !! a) as [c|] eqn:E; try discriminate.
  intros H. injection H as _ <-. split; [exists c; reflexivity | reflexivity].
Qed.

Lemma in_int_true z : INT_MIN <= z <= INT_MAX -> in_int z = true.
Proof. unfold in_int. intros [H1 H2]. apply andb_true_intro. split; lia. Qed.

Lemma in_int_false z : INT_MAX < z -> in_int z = false.
Proof.
  unfold in_int. intros H. apply andb_false_intro2. lia.
Qed.

Lemma int_add_ok a b (h : heap) :
  INT_MIN <= a + b <= INT_MAX -> int_add a b h = Val (a + b, h).
Proof. intros H. unfold int_add. rewrite in_int_true by exact H. reflexivity. Qed.

Lemma int_add_overflow a b (h : heap) :
  INT_MAX < a + b -> int_add a b h = Fault.
Proof. intros H. unfold int_add. rewrite in_int_false by exact H. reflexivity. Qed.

Lemma int_add_inv a b (h h' : heap) r :
  int_add a b h = Val (r, h') ->
  r = a + b /\ h' = h /\ INT_MIN <= a + b <= INT_MAX.
Proof.
  unfold int_add, in_int.
  destruct (INT_MIN <=? a + b) eqn:E1; destruct (a + b <=? INT_MAX) eqn:E2;
    simpl; try discriminate.
  intros H. injection H as <- <-. repeat split; lia.
Qed.

Lemma i64_add_ok a b (h : heap) :
  INT64_MIN <= a + b <= INT64_MAX -> i64_add a b h = Val (a + b, h).
Proof.
  intros [H1 H2]. unfold i64_add, in_int64.
  replace (INT64_MIN <=? a + b) with true by (symmetry; apply Z.leb_le; lia).
  replace (a + b <=? INT64_MAX) with true by (symmetry; apply Z.leb_le; lia).
  reflexivity.
Qed.

Lemma i64_add_inv a b (h h' : heap) r :
  i64_add a b h = Val (r, h') -> r = a + b /\ h' = h.
Proof.
  unfold i64_add. destruct (in_int64 (a + b)); try discriminate.
  intros H. injection H as <- <-. split; reflexivity.
Qed.

Lemma i64_mul_ok a b (h : heap) :
  INT64_MIN <= a * b <= INT64_MAX -> i64_mul a b h = Val (a * b, h).
Proof.
  intros [H1 H2]. unfold i64_mul, in_int64.
  replace (INT64_MIN <=? a * b) with true by (symmetry; apply Z.leb_le; lia).
  replace (a * b <=? INT64_MAX) with true by (symmetry; apply Z.leb_le; lia).
  reflexivity.
Qed.

Lemma i64_mul_inv a b (h h' : heap) r :
  i64_mul a b h = Val (r, h') -> r = a * b /\ h' = h.
Proof.
  unfold i64_mul. destruct (in_int64 (a * b)); try discriminate.
  intros H. injection H as <- <-. split; reflexivity.
Qed.

Lemma int_bounds : INT_MIN = -2147483648 /\ INT_MAX = 2147483647.
Proof. split; reflexivity. Qed.

Ltac int_lia := pose proof int_bounds; lia.

(** One [load] whose slot is known to hold a word. *)
Ltac step_load :=
  erewrite bind_val by (apply load_word; eassumption).
Ltac step_int :=
  erewrite bind_val by (apply int_add_ok; int_lia).

(** ** The flat-array comparison *)

Lemma intcmp_loop_S fuel a b n i j (h : heap) :
  intcmp_loop (S fuel) a b n i j h =
  (if i <? n then
     x <- load (idx a j) ;;
     y <- load (idx b j) ;;
     if negb (x =? y) then ret 0
     else
       j' <- int_add j 1 ;;
       i' <- int_add i 1 ;;
       intcmp_loop fuel a b n i' j'
   else ret 1) h.
Proof. reflexivity. Qed.

(** [k] passes over slots that agree take the loop from [i] to [i + k]. *)
Lemma intcmp_loop_run (k : nat) : forall fuel a b n i j (h : heap),
  j = i + 1 ->
  0 <= i -> i + Z.of_nat k <= n -> i + Z.of_nat k + 1 <= INT_MAX ->
  (forall t, i < t <= i + Z.of_nat k ->
     exists v, h !! idx a t = Some (Word v) /\ h !! idx b t = Some (Word v)) ->
  intcmp_loop (k + fuel) a b n i j h =
  intcmp_loop fuel a b n (i + Z.of_nat k) (i + Z.of_nat k + 1) h.
Proof.
  induction k as [|k IH]; intros fuel a b n i j h -> Hi Hn Hmax Heq.
  - replace (i + Z.of_nat 0) with i by lia. reflexivity.
  - rewrite Nat2Z.inj_succ in *.
    replace (S k + fuel)%nat with (S (k + fuel)) by lia.
    rewrite intcmp_loop_S.
    replace (i <? n) with true by (symmetry; apply Z.ltb_lt; lia).
    destruct (Heq (i + 1)) as (v & Ha & Hb); [lia|].
    do 2 step_load. rewrite Z.eqb_refl. cbn [negb].
    do 2 step_int.
    rewrite (IH fuel a b n (i + 1) (i + 1 + 1) h); try lia.
    + f_equal; lia.
    + intros t Ht. apply Heq. lia.
Qed.

Lemma intcmp_equal a b n (h : heap) :
  h !! a = Some (Word n) -> h !! b = Some (Word n) ->
  0 <= n -> 1 + n <= INT_MAX ->
  (forall t, 1 <= t <= n ->
     exists v, h !! idx a t = Some (Word v) /\ h !! idx b t = Some (Word v)) ->
  intcmp a b h = Val (1, h).
Proof.
  intros Ha Hb Hn Hmax Heq. unfold intcmp.
  do 2 step_load. rewrite Z.eqb_refl. cbn [negb].
  unfold loop_fuel.
  replace (S (Z.to_nat n)) with (Z.to_nat n + 1)%nat by lia.
  rewrite (intcmp_loop_run (Z.to_nat n) 1 a b n 0 1 h); try lia.
  - rewrite intcmp_loop_S.
    replace (0 + Z.of_nat (Z.to_nat n) <? n) with false
      by (symmetry; apply Z.ltb_ge; lia).
    reflexivity.
  - intros t Ht. apply Heq. lia.
Qed.

(** Past [INT_MAX - 1] elements the counter [j] leaves the range of
    [int]. *)
Lemma intcmp_overflow a n (h : heap) :
  flat_array h a n -> INT_MAX <= n -> intcmp a a h = Fault.
Proof.
  intros (Ha & Hn & Hs) Hmax. unfold intcmp.
  do 2 step_load. rewrite Z.eqb_refl. cbn [negb].
  assert (exists k : nat, Z.of_nat k = INT_MAX - 1) as [k Hk].
  { exists (Z.to_nat (INT_MAX - 1)). rewrite Z2Nat.id; [reflexivity|int_lia]. }
  unfold loop_fuel.
  replace (S (Z.to_nat n)) with (k + S (Z.to_nat n - k))%nat by lia.
  rewrite (intcmp_loop_run k _ a a n 0 1 h); try lia.
  - rewrite intcmp_loop_S.
    replace (0 + Z.of_nat k <? n) with true by (symmetry; apply Z.ltb_lt; lia).
    destruct (Hs (0 + Z.of_nat k + 1)) as [v Hv]; [int_lia|].
    do 2 step_load. rewrite Z.eqb_refl. cbn [negb].
    apply bind_fault. apply int_add_overflow. lia.
  - intros t Ht. destruct (Hs t) as [v Hv]; [lia|]. exists v. split; exact Hv.
Qed.

(** ** Computations that only read, and computations that never abort *)

Lemma read_only_ret {A} (a : A) : read_only (ret a).
Proof. intros h b h' H. injection H as _ <-. reflexivity. Qed.

Lemma read_only_fault {A} : read_only (@fault A).
Proof. intros h b h' H. discriminate. Qed.

Lemma read_only_out_of_fuel {A} : read_only (@out_of_fuel A).
Proof. intros h b h' H. discriminate. Qed.

Lemma read_only_load a : read_only (load a).
Proof. intros h v h' H. apply load_inv in H. apply H. Qed.

Lemma read_only_int_add a b : read_only (int_add a b).
Proof. intros h v h' H. apply int_add_inv in H. apply H. Qed.

Lemma read_only_bind {A B} (m : M A) (k : A -> M B) :
  read_only m -> (forall a, read_only (k a)) -> read_only (bind m k).
Proof.
  intros Hm Hk h b h' H.
  apply bind_inv in H as (a & h1 & H1 & H2).
  apply Hm in H1. subst h1. exact (Hk a h b h' H2).
Qed.

Lemma abort_free_ret {A} (a : A) : abort_free (ret a).
Proof. intros h d H. discriminate. Qed.

Lemma abort_free_fault {A} : abort_free (@fault A).
Proof. intros h d H. discriminate. Qed.

Lemma abort_free_out_of_fuel {A} : abort_free (@out_of_fuel A).
Proof. intros h d H. discriminate. Qed.

Lemma abort_free_load a : abort_free (load a).
Proof. intros h d. unfold load. destruct (h !! a) as [[|v]|]; discriminate. Qed.

Lemma abort_free_store a v : abort_free (store a v).
Proof. intros h d. unfold store. destruct (h !! a); discriminate. Qed.

Lemma abort_free_int_add a b : abort_free (int_add a b).
Proof. intros h d. unfold int_add. destruct (in_int (a + b)); discriminate. Qed.

Lemma abort_free_i64_add a b : abort_free (i64_add a b).
Proof. intros h d. unfold i64_add. destruct (in_int64 (a + b)); discriminate. Qed.

Lemma abort_free_i64_mul a b : abort_free (i64_mul a b).
Proof. intros h d. unfold i64_mul. destruct (in_int64 (a * b)); discriminate. Qed.

Lemma abort_free_malloc bytes : abort_free (malloc bytes).
Proof. intros h d. discriminate. Qed.

Lemma abort_free_bind {A B} (m : M A) (k : A -> M B) :
  abort_free m -> (forall a, abort_free (k a)) -> abort_free (bind m k).
Proof.
  intros Hm Hk h d H.
  apply bind_abort_inv in H as [H | (a & h1 & _ & H)].
  - exact (Hm h d H).
  - exact (Hk a h1 d H).
Qed.

Create HintDb runtime.
#[export] Hint Resolve read_only_ret read_only_fault read_only_out_of_fuel
  read_only_load read_only_int_add
  abort_free_ret abort_free_fault abort_free_out_of_fuel abort_free_load
  abort_free_store abort_free_int_add abort_free_i64_add abort_free_i64_mul
  abort_free_malloc : runtime.

(** Splits a goal about a sequence of statements into its statements. *)
Ltac by_statement :=
  repeat first
    [ solve [ auto with runtime ]
    | apply read_only_bind; [ | intros ? ]
    | apply abort_free_bind; [ | intros ? ]
    | match goal with
      | |- context [if ?c then _ else _] => destruct c
      end ].

Lemma read_only_intcmp_loop fuel : forall a b n i j,
  read_only (intcmp_loop fuel a b n i j).
Proof.
  induction fuel as [|fuel IH]; intros a b n i j; cbn [intcmp_loop].
  - auto with runtime.
  - by_statement.
Qed.

Lemma read_only_intcmp a b : read_only (intcmp a b).
Proof. unfold intcmp. by_statement. apply read_only_intcmp_loop. Qed.



(** Two loads commute. *)
Lemma load2_swap {A} a b (k k' : Z -> Z -> M A) (h : heap) :
  (forall x y, k x y h = k' y x h) ->
  (x <- load a ;; y <- load b ;; k x y) h =
  (y <- load b ;; x <- load a ;; k' y x) h.
Proof.
  intros Hk. unfold bind, load.
  destruct (h !! a) as [[|x]|] eqn:Ea; destruct (h !! b) as [[|y]|] eqn:Eb;
    cbn; rewrite ?Ea, ?Eb; try reflexivity.
  apply Hk.
Qed.

Lemma intcmp_loop_sym fuel : forall a b n i j (h : heap),
  intcmp_loop fuel a b n i j h = intcmp_loop fuel b a n i j h.
Proof.
  induction fuel as [|fuel IH]; intros a b n i j h.
  - reflexivity.
  - rewrite !intcmp_loop_S. destruct (i <? n); [|reflexivity].
    apply load2_swap. intros x y. rewrite (Z.eqb_sym y x).
    destruct (negb (x =? y)); [reflexivity|].
    apply bind_cong; [reflexivity|]. intros j' h1.
    apply bind_cong; [reflexivity|]. intros i' h2.
    apply IH.
Qed.

Lemma intcmp_sym a b (h : heap) : intcmp a b h = intcmp b a h.
Proof.
  unfold intcmp.
  apply (load2_swap a b
    (fun x y => if negb (x =? y) then ret 0
                else intcmp_loop (loop_fuel x) a b x 0 1)
    (fun y x => if negb (y =? x) then ret 0
                else intcmp_loop (loop_fuel y) b a y 0 1)).
  intros x y. rewrite (Z.eqb_sym y x).
  destruct (Z.eqb_spec x y) as [->|Hne]; cbn [negb]; [|reflexivity].
  apply intcmp_loop_sym.
Qed.

(** ** The tagged-object comparison *)

Lemma objcmp_loop_S rec fuel a b n i j (h : heap) :
  objcmp_loop rec (S fuel) a b n i j h =
  (if i <? n then
     tag1 <- load (idx a j) ;;
     tag2 <- load (idx b j) ;;
     j1 <- int_add j 1 ;;
     differ <- objcmp_pair rec a b tag1 tag2 j1 ;;
     if (differ : bool) then ret 0
     else
       j' <- int_add j1 1 ;;
       i' <- int_add i 1 ;;
       objcmp_loop rec fuel a b n i' j'
   else ret 1) h.
Proof. reflexivity. Qed.

Lemma objcmp_S d a b (h : heap) :
  objcmp (S d) a b h =
  (obj1_len <- load a ;;
   obj2_len <- load b ;;
   if negb (obj1_len =? obj2_len) then ret 0
   else objcmp_loop (objcmp d) (loop_fuel obj1_len) a b obj1_len 0 1) h.
Proof. reflexivity. Qed.

Lemma objcmp_pair_same rec a b t1 t2 j p (h : heap) :
  h !! idx a j = Some (Word p) -> h !! idx b j = Some (Word p) ->
  objcmp_pair rec a b t1 t2 j h = Val (false, h).
Proof.
  intros Ha Hb. unfold objcmp_pair. do 2 step_load.
  rewrite Z.eqb_refl. reflexivity.
Qed.

Lemma objcmp_pair_tags rec a b t1 t2 j p1 p2 (h : heap) :
  h !! idx a j = Some (Word p1) -> h !! idx b j = Some (Word p2) ->
  p1 <> p2 -> t1 <> t2 \/ t1 = 0 ->
  objcmp_pair rec a b t1 t2 j h = Val (true, h).
Proof.
  intros Ha Hb Hp Ht. unfold objcmp_pair. do 2 step_load.
  replace (p1 =? p2) with false by (symmetry; apply Z.eqb_neq; exact Hp).
  replace (negb (t1 =? t2) || (t1 =? 0)) with true; [reflexivity|].
  symmetry. apply orb_true_iff. destruct Ht as [Ht | ->].
  - left. apply negb_true_iff, Z.eqb_neq. exact Ht.
  - right. reflexivity.
Qed.

Lemma objcmp_pair_nested rec a b t j p1 p2 r (h : heap) :
  h !! idx a j = Some (Word p1) -> h !! idx b j = Some (Word p2) ->
  p1 <> p2 -> t <> 0 -> rec p1 p2 h = Val (r, h) ->
  objcmp_pair rec a b t t j h = Val (r =? 0, h).
Proof.
  intros Ha Hb Hp Ht Hr. unfold objcmp_pair. do 2 step_load.
  replace (p1 =? p2) with false by (symmetry; apply Z.eqb_neq; exact Hp).
  rewrite Z.eqb_refl.
  replace (t =? 0) with false by (symmetry; apply Z.eqb_neq; exact Ht).
  cbn [negb orb]. do 2 step_load.
  rewrite (bind_val _ _ _ _ _ Hr). reflexivity.
Qed.

Lemma pair_passes_run rec a b t (h : heap) :
  pair_passes rec h a b t ->
  exists t1 t2,
    h !! idx a (2 * t + 1) = Some (Word t1) /\
    h !! idx b (2 * t + 1) = Some (Word t2) /\
    objcmp_pair rec a b t1 t2 (2 * t + 2) h = Val (false, h).
Proof.
  intros (t1 & p1 & t2 & p2 & [Ha1 Ha2] & [Hb1 Hb2] & Hv).
  exists t1, t2. split; [exact Ha1|]. split; [exact Hb1|].
  destruct Hv as [-> | (Hp & -> & Ht & r & Hr & Hr0)].
  - eapply objcmp_pair_same; eassumption.
  - erewrite objcmp_pair_nested by eassumption.
    replace (r =? 0) with false by (symmetry; apply Z.eqb_neq; exact Hr0).
    reflexivity.
Qed.

Lemma pair_fails_run rec a b t (h : heap) :
  pair_fails rec h a b t ->
  exists t1 t2,
    h !! idx a (2 * t + 1) = Some (Word t1) /\
    h !! idx b (2 * t + 1) = Some (Word t2) /\
    objcmp_pair rec a b t1 t2 (2 * t + 2) h = Val (true, h).
Proof.
  intros (t1 & p1 & t2 & p2 & [Ha1 Ha2] & [Hb1 Hb2] & Hp & Hv).
  exists t1, t2. split; [exact Ha1|]. split; [exact Hb1|].
  destruct Hv as [Ht | (-> & Ht & Hr)].
  - eapply objcmp_pair_tags; eassumption.
  - erewrite objcmp_pair_nested by eassumption. reflexivity.
Qed.

(** One pass of the loop over a pair whose verdict is known. *)
Lemma objcmp_loop_step rec fuel a b n i j t1 t2 differ (h : heap) :
  j = 2 * i + 1 -> 0 <= i < n -> j + 1 <= INT_MAX ->
  h !! idx a j = Some (Word t1) -> h !! idx b j = Some (Word t2) ->
  objcmp_pair rec a b t1 t2 (j + 1) h = Val (differ, h) ->
  objcmp_loop rec (S fuel) a b n i j h =
  if differ then Val (0, h)
  else (j' <- int_add (j + 1) 1 ;;
        i' <- int_add i 1 ;;
        objcmp_loop rec fuel a b n i' j') h.
Proof.
  intros Hj Hi Hmax Ha Hb Hp. rewrite objcmp_loop_S.
  replace (i <? n) with true by (symmetry; apply Z.ltb_lt; lia).
  do 2 step_load. step_int.
  rewrite (bind_val _ _ _ _ _ Hp). destruct differ; reflexivity.
Qed.

(** [k] passing pairs take the loop from pair [i] to pair [i + k]. *)
Lemma objcmp_loop_run rec (k : nat) : forall fuel a b n i j (h : heap),
  j = 2 * i + 1 ->
  0 <= i -> i + Z.of_nat k <= n -> 2 * (i + Z.of_nat k) + 1 <= INT_MAX ->
  (forall t, i <= t < i + Z.of_nat k -> pair_passes rec h a b t) ->
  objcmp_loop rec (k + fuel) a b n i j h =
  objcmp_loop rec fuel a b n (i + Z.of_nat k) (2 * (i + Z.of_nat k) + 1) h.
Proof.
  induction k as [|k IH]; intros fuel a b n i j h -> Hi Hn Hmax Hpass.
  - replace (i + Z.of_nat 0) with i by lia. reflexivity.
  - rewrite Nat2Z.inj_succ in *.
    replace (S k + fuel)%nat with (S (k + fuel)) by lia.
    destruct (pair_passes_run rec a b i h) as (t1 & t2 & Ha & Hb & Hp);
      [apply Hpass; lia|].
    replace (2 * i + 2) with (2 * i + 1 + 1) in Hp by lia.
    rewrite (objcmp_loop_step rec _ a b n i _ t1 t2 false h);
      try eassumption; try lia.
    do 2 step_int.
    rewrite (IH fuel a b n (i + 1) (2 * i + 1 + 1 + 1) h); try lia.
    + f_equal; lia.
    + intros t Ht. apply Hpass. lia.
Qed.

Lemma objcmp_first_failure d a b n i (h : heap) :
  h !! a = Some (Word n) -> h !! b = Some (Word n) ->
  1 + 2 * n <= INT_MAX -> 0 <= i < n ->
  (forall t, 0 <= t < i -> pair_passes (objcmp d) h a b t) ->
  pair_fails (objcmp d) h a b i ->
  objcmp (S d) a b h = Val (0, h).
Proof.
  intros Ha Hb Hmax Hi Hpass Hfail. rewrite objcmp_S.
  do 2 step_load. rewrite Z.eqb_refl. cbn [negb].
  unfold loop_fuel.
  replace (S (Z.to_nat n)) with (Z.to_nat i + S (Z.to_nat n - Z.to_nat i))%nat
    by lia.
  rewrite (objcmp_loop_run _ (Z.to_nat i) _ a b n 0 1 h); try lia.
  - destruct (pair_fails_run _ a b i h Hfail) as (t1 & t2 & Ht1 & Ht2 & Hp).
    replace (0 + Z.of_nat (Z.to_nat i)) with i by lia.
    replace (2 * i + 2) with (2 * i + 1 + 1) in Hp by lia.
    rewrite (objcmp_loop_step _ _ a b n i _ t1 t2 true h);
      try eassumption; try lia.
    reflexivity.
  - intros t Ht. apply Hpass. lia.
Qed.

Lemma objcmp_all_pass d a b n (h : heap) :
  h !! a = Some (Word n) -> h !! b = Some (Word n) ->
  1 + 2 * n <= INT_MAX ->
  (forall t, 0 <= t < n -> pair_passes (objcmp d) h a b t) ->
  objcmp (S d) a b h = Val (1, h).
Proof.
  intros Ha Hb Hmax Hpass. rewrite objcmp_S.
  do 2 step_load. rewrite Z.eqb_refl. cbn [negb].
  unfold loop_fuel.
  replace (S (Z.to_nat n)) with (Z.to_nat n + 1)%nat by lia.
  destruct (Z.le_gt_cases 0 n) as [Hn | Hn].
  - rewrite (objcmp_loop_run _ (Z.to_nat n) 1 a b n 0 1 h); try lia.
    + rewrite objcmp_loop_S.
      replace (0 + Z.of_nat (Z.to_nat n) <? n) with false
        by (symmetry; apply Z.ltb_ge; lia).
      reflexivity.
    + intros t Ht. apply Hpass. lia.
  - replace (Z.to_nat n) with O by lia. cbn [Nat.add]. rewrite objcmp_loop_S.
    replace (0 <? n) with false by (symmetry; apply Z.ltb_ge; lia).
    reflexivity.
Qed.

Lemma objcmp_overflow d a b n t1 t2 (h : heap) :
  h !! a = Some (Word n) -> h !! b = Some (Word n) ->
  INT_MAX < 1 + 2 * n ->
  (forall t, 0 <= t < LAST_PAIR -> pair_passes (objcmp d) h a b t) ->
  h !! idx a (2 * LAST_PAIR + 1) = Some (Word t1) ->
  h !! idx b (2 * LAST_PAIR + 1) = Some (Word t2) ->
  objcmp (S d) a b h = Fault.
Proof.
  intros Ha Hb Hmax Hpass Ht1 Ht2. rewrite objcmp_S.
  do 2 step_load. rewrite Z.eqb_refl. cbn [negb].
  assert (LAST_PAIR = 1073741823) as HL by reflexivity.
  assert (exists k : nat, Z.of_nat k = LAST_PAIR) as [k Hk].
  { exists (Z.to_nat LAST_PAIR). rewrite Z2Nat.id; [reflexivity|lia]. }
  unfold loop_fuel.
  replace (S (Z.to_nat n)) with (k + S (Z.to_nat n - k))%nat by int_lia.
  rewrite (objcmp_loop_run _ k _ a b n 0 1 h); try int_lia.
  - rewrite objcmp_loop_S.
    replace (0 + Z.of_nat k <? n) with true
      by (symmetry; apply Z.ltb_lt; int_lia).
    replace (0 + Z.of_nat k) with LAST_PAIR by lia.
    do 2 step_load.
    apply bind_fault. apply int_add_overflow. int_lia.
  - intros t Ht. apply Hpass. lia.
Qed.

(** What a returned verdict of the chain of tests tells. *)
Lemma objcmp_pair_inv rec a b t1 t2 j differ (h h' : heap) :
  objcmp_pair rec a b t1 t2 j h = Val (differ, h') ->
  exists p1 p2,
    h !! idx a j = Some (Word p1) /\ h !! idx b j = Some (Word p2) /\
    ((p1 = p2 /\ differ = false /\ h' = h) \/
     (p1 <> p2 /\ (t1 <> t2 \/ t1 = 0) /\ differ = true /\ h' = h) \/
     (p1 <> p2 /\ t1 = t2 /\ t1 <> 0 /\
      exists r, rec p1 p2 h = Val (r, h') /\ differ = (r =? 0))).
Proof.
  unfold objcmp_pair. intros H.
  apply bind_inv in H as (p1 & h1 & H1 & H).
  apply load_inv in H1 as [Hp1 ->].
  apply bind_inv in H as (p2 & h1 & H2 & H).
  apply load_inv in H2 as [Hp2 ->].
  exists p1, p2. split; [exact Hp1|]. split; [exact Hp2|].
  destruct (Z.eqb_spec p1 p2) as [Heq | Hne].
  - injection H as <- <-. left. auto.
  - right. destruct (Z.eqb_spec t1 t2) as [<- | Htne]; cbn [negb orb] in H.
    + destruct (Z.eqb_spec t1 0) as [Ht0 | Ht0].
      * injection H as <- <-. left. auto.
      * right. apply bind_inv in H as (q1 & h1 & H1 & H).
        apply load_inv in H1 as [Hq1 ->].
        apply bind_inv in H as (q2 & h1 & H2 & H).
        apply load_inv in H2 as [Hq2 ->].
        assert (q1 = p1) as -> by congruence.
        assert (q2 = p2) as -> by congruence.
        apply bind_inv in H as (r & h1 & Hr & H).
        injection H as <- <-.
        repeat split; auto. exists r. auto.
    + injection H as <- <-. left. auto.
Qed.

Lemma objcmp_loop_inv rec a b n (h : heap) :
  (forall x y, read_only (rec x y)) ->
  forall fuel i j h',
    j = 2 * i + 1 -> 0 <= i ->
    objcmp_loop rec fuel a b n i j h = Val (1, h') ->
    forall t, i <= t < n -> pair_passes rec h a b t.
Proof.
  intros Hrec. induction fuel as [|fuel IH]; intros i j h' -> Hi H t Ht.
  - discriminate.
  - rewrite objcmp_loop_S in H.
    replace (i <? n) with true in H by (symmetry; apply Z.ltb_lt; lia).
    apply bind_inv in H as (t1 & h1 & H1 & H).
    apply load_inv in H1 as [Ht1 ->].
    apply bind_inv in H as (t2 & h1 & H2 & H).
    apply load_inv in H2 as [Ht2 ->].
    apply bind_inv in H as (j1 & h1 & H1 & H).
    apply int_add_inv in H1 as (-> & -> & Hj1).
    apply bind_inv in H as (differ & h1 & Hp & H).
    apply objcmp_pair_inv in Hp as (p1 & p2 & Hp1 & Hp2 & Hv).
    replace (2 * i + 1 + 1) with (2 * i + 2) in * by lia.
    assert (differ = false /\ h1 = h /\
            (p1 = p2 \/
             (p1 <> p2 /\ t1 = t2 /\ t1 <> 0 /\
              exists r, rec p1 p2 h = Val (r, h) /\ r <> 0)))
      as (-> & -> & Hpass).
    { destruct Hv as [(-> & -> & ->) | [(_ & _ & -> & _) | Hv]].
      - auto.
      - discriminate.
      - destruct Hv as (Hne & <- & Ht0 & r & Hr & ->).
        pose proof (Hrec _ _ _ _ _ Hr) as ->.
        destruct (Z.eqb_spec r 0) as [Hr0 | Hr0]; [discriminate H|].
        repeat split; auto. right. repeat split; auto. exists r. auto. }
    apply bind_inv in H as (j' & h1 & H1 & H).
    apply int_add_inv in H1 as (-> & -> & Hj').
    apply bind_inv in H as (i' & h1 & H1 & H).
    apply int_add_inv in H1 as (-> & -> & Hi').
    destruct (Z.eq_dec t i) as [-> | Hti].
    + exists t1, p1, t2, p2. repeat split; assumption.
    + apply (IH (i + 1) (2 * i + 2 + 1) h'); try lia. exact H.
Qed.

Lemma objcmp_result_1 d a b n (h h' : heap) :
  (forall x y, read_only (objcmp d x y)) ->
  h !! a = Some (Word n) -> h !! b = Some (Word n) ->
  objcmp (S d) a b h = Val (1, h') ->
  forall t, 0 <= t < n -> pair_passes (objcmp d) h a b t.
Proof.
  intros Hrec Ha Hb H. rewrite objcmp_S in H.
  revert H. do 2 step_load. rewrite Z.eqb_refl. cbn [negb]. intros H.
  eapply objcmp_loop_inv; try exact H; auto; lia.
Qed.

Lemma read_only_objcmp_pair rec a b t1 t2 j :
  (forall x y, read_only (rec x y)) ->
  read_only (objcmp_pair rec a b t1 t2 j).
Proof. intros Hrec. unfold objcmp_pair. by_statement. Qed.

Lemma read_only_objcmp_loop rec :
  (forall x y, read_only (rec x y)) ->
  forall fuel a b n i j, read_only (objcmp_loop rec fuel a b n i j).
Proof.
  intros Hrec. induction fuel as [|fuel IH]; intros a b n i j;
    cbn [objcmp_loop].
  - auto with runtime.
  - pose proof (read_only_objcmp_pair rec) as Hpair. by_statement.
Qed.

Lemma read_only_objcmp d : forall a b, read_only (objcmp d a b).
Proof.
  induction d as [|d IH]; intros a b; cbn [objcmp].
  - auto with runtime.
  - pose proof (read_only_objcmp_loop (objcmp d) IH) as Hloop. by_statement.
Qed.




Lemma objcmp_pair_sym rec rec' a b t1 t2 j (h : heap) :
  (forall x y h0, rec x y h0 = rec' y x h0) ->
  objcmp_pair rec a b t1 t2 j h = objcmp_pair rec' b a t2 t1 j h.
Proof.
  intros Hrec. unfold objcmp_pair. apply load2_swap. intros p1 p2.
  rewrite (Z.eqb_sym p2 p1). destruct (p1 =? p2); [reflexivity|].
  rewrite (Z.eqb_sym t2 t1).
  destruct (Z.eqb_spec t1 t2) as [<- | Hne]; cbn [negb orb]; [|reflexivity].
  destruct (t1 =? 0); [reflexivity|].
  apply load2_swap. intros q1 q2. unfold bind. rewrite Hrec. reflexivity.
Qed.

Lemma objcmp_loop_sym rec rec' :
  (forall x y h0, rec x y h0 = rec' y x h0) ->
  forall fuel a b n i j (h : heap),
    objcmp_loop rec fuel a b n i j h = objcmp_loop rec' fuel b a n i j h.
Proof.
  intros Hrec. induction fuel as [|fuel IH]; intros a b n i j h.
  - reflexivity.
  - rewrite !objcmp_loop_S. destruct (i <? n); [|reflexivity].
    apply load2_swap. intros t1 t2.
    apply bind_cong; [reflexivity|]. intros j1 h1.
    apply bind_cong; [apply objcmp_pair_sym; exact Hrec|]. intros differ h2.
    destruct differ; [reflexivity|].
    apply bind_cong; [reflexivity|]. intros j' h3.
    apply bind_cong; [reflexivity|]. intros i' h4.
    apply IH.
Qed.

Lemma objcmp_sym d : forall a b (h : heap), objcmp d a b h = objcmp d b a h.
Proof.
  induction d as [|d IH]; intros a b h.
  - reflexivity.
  - rewrite !objcmp_S.
    apply (load2_swap a b
      (fun x y => if negb (x =? y) then ret 0
                  else objcmp_loop (objcmp d) (loop_fuel x) a b x 0 1)
      (fun y x => if negb (y =? x) then ret 0
                  else objcmp_loop (objcmp d) (loop_fuel y) b a y 0 1)).
    intros x y. rewrite (Z.eqb_sym y x).
    destruct (Z.eqb_spec x y) as [-> | Hne]; cbn [negb]; [|reflexivity].
    apply objcmp_loop_sym. exact IH.
Qed.

(** ** Allocation *)

Lemma heap_top_spec (h : heap) :
  WORD <= heap_top h /\
  forall k c, h !! k = Some c -> k + WORD <= heap_top h.
Proof.
  unfold heap_top.
  apply (map_fold_weak_ind
    (fun (t : Z) (m : heap) =>
       WORD <= t /\ forall k c, m !! k = Some c -> k + WORD <= t)).
  - split; [lia|]. intros k c H. rewrite lookup_empty in H. discriminate.
  - intros i x m r Hi [Hr Hm]. split; [lia|].
    intros k c Hk. destruct (decide (i = k)) as [->|Hne].
    + lia.
    + rewrite lookup_insert_ne in Hk by exact Hne.
      specialize (Hm k c Hk). lia.
Qed.

Lemma heap_top_fresh (h : heap) t : 0 <= t -> h !! idx (heap_top h) t = None.
Proof.
  intros Ht. destruct (h !! idx (heap_top h) t) as [c|] eqn:E; [|reflexivity].
  apply heap_top_spec in E. unfold idx, WORD in E. lia.
Qed.

Lemma fresh_cells_in w : forall p (h : heap) t,
  0 <= t < Z.of_nat w -> fresh_cells w p h !! idx p t = Some Undef.
Proof.
  induction w as [|w IH]; intros p h t Ht; [lia|].
  cbn [fresh_cells]. destruct (Z.eq_dec t 0) as [-> | Hne].
  - rewrite idx_0. apply lookup_insert_eq.
  - rewrite lookup_insert_ne by (unfold idx, WORD; lia).
    replace (idx p t) with (idx (p + WORD) (t - 1)) by (unfold idx, WORD; lia).
    apply IH. lia.
Qed.

Lemma fresh_cells_out w : forall p (h : heap) a,
  (forall t, 0 <= t < Z.of_nat w -> a <> idx p t) ->
  fresh_cells w p h !! a = h !! a.
Proof.
  induction w as [|w IH]; intros p h a Ha; [reflexivity|].
  cbn [fresh_cells]. rewrite lookup_insert_ne.
  - apply IH. intros t Ht.
    replace (idx (p + WORD) t) with (idx p (t + 1)) by (unfold idx, WORD; lia).
    apply Ha. lia.
  - intros ->. apply (Ha 0); [lia|]. rewrite idx_0. reflexivity.
Qed.

Lemma size_of_words_small n :
  0 <= WORD * n < SIZE_MODULUS -> size_of_words n / WORD = n.
Proof.
  intros Hn. unfold size_of_words, WORD, SIZE_MODULUS in *.
  rewrite Z.mod_small by lia.
  rewrite Z.mul_comm. apply Z.div_mul. lia.
Qed.

(** ** The copy loop *)

Lemma copy_loop_S fuel cpy obj n i (h : heap) :
  copy_loop (S fuel) cpy obj n i h =
  (if i <? n then
     v <- load (idx obj i) ;;
     store (idx cpy i) v ;;;
     i' <- int_add i 1 ;;
     copy_loop fuel cpy obj n i'
   else ret tt) h.
Proof. reflexivity. Qed.

(** [k] passes copy the slots [i .. i + k - 1] and nothing else. *)
Lemma copy_loop_run cpy obj n (k : nat) : forall fuel i (h : heap),
  0 <= i -> i + Z.of_nat k <= n -> i + Z.of_nat k <= INT_MAX ->
  (forall t, i <= t < i + Z.of_nat k ->
     exists v, h !! idx obj t = Some (Word v)) ->
  (forall t, i <= t < i + Z.of_nat k -> is_Some (h !! idx cpy t)) ->
  (forall t t', i <= t < i + Z.of_nat k -> i <= t' < i + Z.of_nat k ->
     idx cpy t <> idx obj t') ->
  exists h',
    copy_loop (k + fuel) cpy obj n i h =
      copy_loop fuel cpy obj n (i + Z.of_nat k) h' /\
    (forall t, i <= t < i + Z.of_nat k -> h' !! idx cpy t = h !! idx obj t) /\
    (forall a, (forall t, i <= t < i + Z.of_nat k -> a <> idx cpy t) ->
       h' !! a = h !! a).
Proof.
  induction k as [|k IH]; intros fuel i h Hi Hn Hmax Hobj Hcpy Hdis.
  - exists h. replace (i + Z.of_nat 0) with i by lia.
    split; [reflexivity|]. split; [intros t Ht; lia | reflexivity].
  - rewrite Nat2Z.inj_succ in *.
    replace (S k + fuel)%nat with (S (k + fuel)) by lia.
    destruct (Hobj i) as [v Hv]; [lia|].
    destruct (Hcpy i) as [c Hc]; [lia|].
    set (h1 := <[idx cpy i := Word v]> h).
    assert (forall a, a <> idx cpy i -> h1 !! a = h !! a) as Hh1.
    { intros a Ha. unfold h1. apply lookup_insert_ne. congruence. }
    destruct (IH fuel (i + 1) h1) as (h' & Hrun & Hcopied & Hframe);
      try lia.
    + intros t Ht. destruct (Hobj t) as [w Hw]; [lia|]. exists w.
      rewrite Hh1; [exact Hw|]. intros E. symmetry in E. revert E.
      apply Hdis; lia.
    + intros t Ht. rewrite Hh1; [apply Hcpy; lia|].
      intros E. apply idx_inj in E. lia.
    + intros t t' Ht Ht'. apply Hdis; lia.
    + exists h'. split; [|split].
      * rewrite copy_loop_S.
        replace (i <? n) with true by (symmetry; apply Z.ltb_lt; lia).
        step_load. rewrite (bind_val _ _ _ _ _ (store_cell _ v _ _ Hc)).
        step_int. fold h1. rewrite Hrun. f_equal. lia.
      * intros t Ht. destruct (Z.eq_dec t i) as [-> | Hne].
        -- rewrite Hframe.
           ++ unfold h1. rewrite lookup_insert_eq. symmetry. exact Hv.
           ++ intros t Ht' E. apply idx_inj in E. lia.
        -- rewrite Hcopied by lia. apply Hh1.
           intros E. symmetry in E. revert E. apply Hdis; lia.
      * intros a Ha. rewrite Hframe.
        -- apply Hh1. apply Ha. lia.
        -- intros t Ht. apply Ha. lia.
Qed.

(** Whatever the loop does, it writes only to slots of [cpy] from index
    [i] on. *)
Lemma copy_loop_frame cpy obj n : forall fuel i (h h' : heap) u,
  copy_loop fuel cpy obj n i h = Val (u, h') ->
  forall a, (forall t, i <= t -> a <> idx cpy t) -> h' !! a = h !! a.
Proof.
  induction fuel as [|fuel IH]; intros i h h' u H a Ha.
  - discriminate.
  - rewrite copy_loop_S in H. destruct (i <? n).
    + apply bind_inv in H as (v & h1 & H1 & H).
      apply load_inv in H1 as [_ ->].
      apply bind_inv in H as (u1 & h1 & H1 & H).
      apply store_inv in H1 as [_ ->].
      apply bind_inv in H as (i' & h1 & H1 & H).
      apply int_add_inv in H1 as (-> & -> & _).
      rewrite (IH _ _ _ _ H a).
      * apply lookup_insert_ne. intros E. apply (Ha i); [lia|]. congruence.
      * intros t Ht. apply Ha. lia.
    + injection H as _ <-. reflexivity.
Qed.


(** ** The two clones *)

Lemma intcpy_unfold obj (h : heap) :
  intcpy obj h =
  (len <- load (idx obj 0) ;; n <- i64_add 1 len ;; clone_tail obj n) h.
Proof. reflexivity. Qed.

Lemma objcpy_unfold obj (h : heap) :
  objcpy obj h =
  (len <- load (idx obj 0) ;; len2 <- i64_mul len 2 ;;
   n <- i64_add 1 len2 ;; clone_tail obj n) h.
Proof. reflexivity. Qed.

Lemma fresh_block_disjoint (h : heap) obj t t' c :
  0 <= t -> h !! idx obj t' = Some c -> idx (heap_top h) t <> idx obj t'.
Proof.
  intros Ht Hobj E. rewrite <- E in Hobj.
  rewrite heap_top_fresh in Hobj by exact Ht. discriminate.
Qed.

Lemma clone_tail_ok obj n (h : heap) :
  0 <= n <= INT_MAX ->
  (forall t, 0 <= t < n -> exists v, h !! idx obj t = Some (Word v)) ->
  exists h',
    clone_tail obj n h = Val (heap_top h, h') /\
    (forall t, 0 <= t < n -> h' !! idx (heap_top h) t = h !! idx obj t) /\
    (forall a, (forall t, 0 <= t < n -> a <> idx (heap_top h) t) ->
       h' !! a = h !! a).
Proof.
  intros Hn Hobj. unfold clone_tail.
  set (c := heap_top h).
  set (h0 := fresh_cells (Z.to_nat (size_of_words n / WORD)) c h).
  assert (malloc (size_of_words n) h = Val (c, h0)) as Hm by reflexivity.
  rewrite (bind_val _ _ _ _ _ Hm).
  assert (size_of_words n / WORD = n) as Hsz.
  { apply size_of_words_small. unfold WORD, SIZE_MODULUS. int_lia. }
  assert (forall a, (forall t, 0 <= t < n -> a <> idx c t) -> h0 !! a = h !! a)
    as Hout.
  { intros a Ha. unfold h0. apply fresh_cells_out. intros t Ht. apply Ha.
    rewrite Hsz in Ht. lia. }
  assert (forall t, 0 <= t < n -> h0 !! idx obj t = h !! idx obj t) as Hsame.
  { intros t Ht. apply Hout. intros t' Ht' E.
    destruct (Hobj t Ht) as [v Hv].
    symmetry in E. revert E. eapply fresh_block_disjoint; [lia|exact Hv]. }
  destruct (copy_loop_run c obj n (Z.to_nat n) 1 0 h0)
    as (h' & Hrun & Hcopied & Hframe); try lia.
  - intros t Ht. rewrite Hsame by lia. apply Hobj. lia.
  - intros t Ht. exists Undef. unfold h0. apply fresh_cells_in.
    rewrite Hsz. lia.
  - intros t t' Ht Ht'. destruct (Hobj t') as [v Hv]; [lia|].
    eapply fresh_block_disjoint; [lia|exact Hv].
  - exists h'. split; [|split].
    + unfold loop_fuel.
      replace (S (Z.to_nat n)) with (Z.to_nat n + 1)%nat by lia.
      unfold bind at 1. rewrite Hrun. rewrite copy_loop_S.
      replace (0 + Z.of_nat (Z.to_nat n) <? n) with false
        by (symmetry; apply Z.ltb_ge; lia).
      reflexivity.
    + intros t Ht. rewrite Hcopied by lia. apply Hsame. exact Ht.
    + intros a Ha. rewrite Hframe.
      * apply Hout. exact Ha.
      * intros t Ht. apply Ha. lia.
Qed.

(** More words than [int] can count: [++i] leaves the range of [int]. *)
Lemma clone_tail_overflow obj n (h : heap) :
  INT_MAX < n -> WORD * n < SIZE_MODULUS ->
  (forall t, 0 <= t < n -> exists v, h !! idx obj t = Some (Word v)) ->
  clone_tail obj n h = Fault.
Proof.
  intros Hn Hsize Hobj. unfold clone_tail.
  set (c := heap_top h).
  set (h0 := fresh_cells (Z.to_nat (size_of_words n / WORD)) c h).
  assert (malloc (size_of_words n) h = Val (c, h0)) as Hm by reflexivity.
  rewrite (bind_val _ _ _ _ _ Hm).
  assert (size_of_words n / WORD = n) as Hsz.
  { apply size_of_words_small. unfold WORD in *. int_lia. }
  assert (forall a, (forall t, 0 <= t < n -> a <> idx c t) -> h0 !! a = h !! a)
    as Hout.
  { intros a Ha. unfold h0. apply fresh_cells_out. intros t Ht. apply Ha.
    rewrite Hsz in Ht. lia. }
  assert (forall t, 0 <= t < n -> h0 !! idx obj t = h !! idx obj t) as Hsame.
  { intros t Ht. apply Hout. intros t' Ht' E.
    destruct (Hobj t Ht) as [v Hv].
    symmetry in E. revert E. eapply fresh_block_disjoint; [lia|exact Hv]. }
  assert (forall t, 0 <= t < n -> h0 !! idx c t = Some Undef) as Hin.
  { intros t Ht. unfold h0. apply fresh_cells_in. rewrite Hsz. lia. }
  assert (exists k : nat, Z.of_nat k = INT_MAX) as [k Hk].
  { exists (Z.to_nat INT_MAX). rewrite Z2Nat.id; [reflexivity|int_lia]. }
  destruct (copy_loop_run c obj n k (S (Z.to_nat n - k)) 0 h0)
    as (h' & Hrun & Hcopied & Hframe); try int_lia.
  - intros t Ht. rewrite Hsame by lia. apply Hobj. lia.
  - intros t Ht. exists Undef. apply Hin. lia.
  - intros t t' Ht Ht'. destruct (Hobj t') as [v Hv]; [lia|].
    eapply fresh_block_disjoint; [lia|exact Hv].
  - apply bind_fault. unfold loop_fuel.
    replace (S (Z.to_nat n)) with (k + S (Z.to_nat n - k))%nat by lia.
    rewrite Hrun. rewrite copy_loop_S.
    replace (0 + Z.of_nat k <? n) with true
      by (symmetry; apply Z.ltb_lt; lia).
    destruct (Hobj (0 + Z.of_nat k)) as [v Hv]; [lia|].
    assert (h' !! idx obj (0 + Z.of_nat k) = Some (Word v)) as Hv'.
    { rewrite Hframe.
      - rewrite Hsame by lia. exact Hv.
      - intros t Ht E. symmetry in E. revert E.
        eapply fresh_block_disjoint; [lia|exact Hv]. }
    assert (h' !! idx c (0 + Z.of_nat k) = Some Undef) as Hc'.
    { rewrite Hframe.
      - apply Hin. lia.
      - intros t Ht E. apply idx_inj in E. lia. }
    step_load. rewrite (bind_val _ _ _ _ _ (store_cell _ v _ _ Hc')).
    apply bind_fault. apply int_add_overflow. lia.
Qed.

Lemma clone_tail_frame obj n (h h' : heap) c :
  clone_tail obj n h = Val (c, h') ->
  c = heap_top h /\ forall a, is_Some (h !! a) -> h' !! a = h !! a.
Proof.
  unfold clone_tail. intros H.
  apply bind_inv in H as (c0 & h0 & Hm & H).
  injection Hm as <- <-.
  apply bind_inv in H as (u & h1 & Hl & H).
  injection H as <- <-. split; [reflexivity|].
  intros a [x Ha].
  assert (forall t, 0 <= t -> a <> idx (heap_top h) t) as Hne.
  { intros t Ht E. rewrite E in Ha. rewrite heap_top_fresh in Ha by exact Ht.
    discriminate. }
  rewrite (copy_loop_frame _ _ _ _ _ _ _ _ Hl a Hne).
  apply fresh_cells_out. intros t Ht. apply Hne. lia.
Qed.




(** ** The two fills *)

Lemma intfill_loop_S fuel obj v len i j (h : heap) :
  intfill_loop (S fuel) obj v len i j h =
  (if i <? len then
     store (idx obj j) v ;;;
     j' <- int_add j 1 ;;
     i' <- int_add i 1 ;;
     intfill_loop fuel obj v len i' j'
   else ret tt) h.
Proof. reflexivity. Qed.

Lemma intfill_loop_run obj v len (k : nat) : forall fuel i j (h : heap),
  j = i + 1 ->
  0 <= i -> i + Z.of_nat k <= len -> i + Z.of_nat k + 1 <= INT_MAX ->
  (forall t, i < t <= i + Z.of_nat k -> is_Some (h !! idx obj t)) ->
  exists h',
    intfill_loop (k + fuel) obj v len i j h =
      intfill_loop fuel obj v len (i + Z.of_nat k) (i + Z.of_nat k + 1) h' /\
    (forall t, i < t <= i + Z.of_nat k -> h' !! idx obj t = Some (Word v)) /\
    (forall a, (forall t, i < t <= i + Z.of_nat k -> a <> idx obj t) ->
       h' !! a = h !! a).
Proof.
  induction k as [|k IH]; intros fuel i j h -> Hi Hn Hmax Hal.
  - exists h. replace (i + Z.of_nat 0) with i by lia.
    split; [reflexivity|]. split; [intros t Ht; lia | reflexivity].
  - rewrite Nat2Z.inj_succ in *.
    replace (S k + fuel)%nat with (S (k + fuel)) by lia.
    destruct (Hal (i + 1)) as [c Hc]; [lia|].
    set (h1 := <[idx obj (i + 1) := Word v]> h).
    assert (forall a, a <> idx obj (i + 1) -> h1 !! a = h !! a) as Hh1.
    { intros a Ha. unfold h1. apply lookup_insert_ne. congruence. }
    destruct (IH fuel (i + 1) (i + 1 + 1) h1) as (h' & Hrun & Hset & Hframe);
      try lia.
    + intros t Ht. rewrite Hh1; [apply Hal; lia|].
      intros E. apply idx_inj in E. lia.
    + exists h'. split; [|split].
      * rewrite intfill_loop_S.
        replace (i <? len) with true by (symmetry; apply Z.ltb_lt; lia).
        rewrite (bind_val _ _ _ _ _ (store_cell _ v _ _ Hc)).
        do 2 step_int. fold h1. rewrite Hrun. f_equal; lia.
      * intros t Ht. destruct (Z.eq_dec t (i + 1)) as [-> | Hne].
        -- rewrite Hframe.
           ++ unfold h1. apply lookup_insert_eq.
           ++ intros t Ht' E. apply idx_inj in E. lia.
        -- apply Hset. lia.
      * intros a Ha. rewrite Hframe.
        -- apply Hh1. apply Ha. lia.
        -- intros t Ht. apply Ha. lia.
Qed.

Lemma intfill_ok obj v n (h : heap) :
  h !! obj = Some (Word n) -> 0 <= n -> 1 + n <= INT_MAX ->
  (forall t, 1 <= t <= n -> is_Some (h !! idx obj t)) ->
  exists h',
    intfill obj v h = Val (tt, h') /\
    (forall t, 1 <= t <= n -> h' !! idx obj t = Some (Word v)) /\
    (forall a, (forall t, 1 <= t <= n -> a <> idx obj t) -> h' !! a = h !! a).
Proof.
  intros Hobj Hn Hmax Hal. unfold intfill. rewrite idx_0. step_load.
  destruct (intfill_loop_run obj v n (Z.to_nat n) 1 0 1 h)
    as (h' & Hrun & Hset & Hframe); try lia.
  - intros t Ht. apply Hal. lia.
  - exists h'. split; [|split].
    + unfold loop_fuel.
      replace (S (Z.to_nat n)) with (Z.to_nat n + 1)%nat by lia.
      rewrite Hrun. rewrite intfill_loop_S.
      replace (0 + Z.of_nat (Z.to_nat n) <? n) with false
        by (symmetry; apply Z.ltb_ge; lia).
      reflexivity.
    + intros t Ht. apply Hset. lia.
    + intros a Ha. apply Hframe. intros t Ht. apply Ha. lia.
Qed.

Lemma intfill_overflow obj v n (h : heap) :
  h !! obj = Some (Word n) -> INT_MAX <= n ->
  (forall t, 1 <= t <= n -> is_Some (h !! idx obj t)) ->
  intfill obj v h = Fault.
Proof.
  intros Hobj Hmax Hal. unfold intfill. rewrite idx_0. step_load.
  assert (exists k : nat, Z.of_nat k = INT_MAX - 1) as [k Hk].
  { exists (Z.to_nat (INT_MAX - 1)). rewrite Z2Nat.id; [reflexivity|int_lia]. }
  destruct (intfill_loop_run obj v n k (S (Z.to_nat n - k)) 0 1 h)
    as (h' & Hrun & Hset & Hframe); try lia.
  - intros t Ht. apply Hal. lia.
  - unfold loop_fuel.
    replace (S (Z.to_nat n)) with (k + S (Z.to_nat n - k))%nat by lia.
    rewrite Hrun. rewrite intfill_loop_S.
    replace (0 + Z.of_nat k <? n) with true by (symmetry; apply Z.ltb_lt; lia).
    destruct (Hal (0 + Z.of_nat k + 1)) as [c Hc]; [int_lia|].
    rewrite <- Hframe in Hc.
    + rewrite (bind_val _ _ _ _ _ (store_cell _ v _ _ Hc)).
      apply bind_fault. apply int_add_overflow. lia.
    + intros t Ht E. apply idx_inj in E. lia.
Qed.

Lemma objfill_loop_S fuel obj tag v len i j (h : heap) :
  objfill_loop (S fuel) obj tag v len i j h =
  (if i <? len then
     store (idx obj j) tag ;;;
     j1 <- int_add j 1 ;;
     store (idx obj j1) v ;;;
     j' <- int_add j1 1 ;;
     i' <- int_add i 1 ;;
     objfill_loop fuel obj tag v len i' j'
   else ret tt) h.
Proof. reflexivity. Qed.

Lemma objfill_loop_run obj tag v len (k : nat) : forall fuel i j (h : heap),
  j = 2 * i + 1 ->
  0 <= i -> i + Z.of_nat k <= len -> 2 * (i + Z.of_nat k) + 1 <= INT_MAX ->
  (forall s, 2 * i < s <= 2 * (i + Z.of_nat k) -> is_Some (h !! idx obj s)) ->
  exists h',
    objfill_loop (k + fuel) obj tag v len i j h =
      objfill_loop fuel obj tag v len
        (i + Z.of_nat k) (2 * (i + Z.of_nat k) + 1) h' /\
    (forall t, i <= t < i + Z.of_nat k ->
       h' !! idx obj (2 * t + 1) = Some (Word tag) /\
       h' !! idx obj (2 * t + 2) = Some (Word v)) /\
    (forall a,
       (forall s, 2 * i < s <= 2 * (i + Z.of_nat k) -> a <> idx obj s) ->
       h' !! a = h !! a).
Proof.
  induction k as [|k IH]; intros fuel i j h -> Hi Hn Hmax Hal.
  - exists h. replace (i + Z.of_nat 0) with i by lia.
    split; [reflexivity|]. split; [intros t Ht; lia | reflexivity].
  - rewrite Nat2Z.inj_succ in *.
    replace (S k + fuel)%nat with (S (k + fuel)) by lia.
    destruct (Hal (2 * i + 1)) as [c1 Hc1]; [lia|].
    destruct (Hal (2 * i + 1 + 1)) as [c2 Hc2]; [lia|].
    set (h1 := <[idx obj (2 * i + 1) := Word tag]> h).
    set (h2 := <[idx obj (2 * i + 1 + 1) := Word v]> h1).
    assert (h1 !! idx obj (2 * i + 1 + 1) = Some c2) as Hc2'.
    { unfold h1. rewrite lookup_insert_ne; [exact Hc2|].
      intros E. apply idx_inj in E. lia. }
    assert (forall a, a <> idx obj (2 * i + 1) ->
              a <> idx obj (2 * i + 1 + 1) -> h2 !! a = h !! a) as Hh2.
    { intros a Ha1 Ha2. unfold h2, h1.
      rewrite !lookup_insert_ne by congruence. reflexivity. }
    destruct (IH fuel (i + 1) (2 * i + 1 + 1 + 1) h2)
      as (h' & Hrun & Hset & Hframe); try lia.
    + intros s Hs. rewrite Hh2.
      * apply Hal. lia.
      * intros E. apply idx_inj in E. lia.
      * intros E. apply idx_inj in E. lia.
    + exists h'. split; [|split].
      * rewrite objfill_loop_S.
        replace (i <? len) with true by (symmetry; apply Z.ltb_lt; lia).
        rewrite (bind_val _ _ _ _ _ (store_cell _ tag _ _ Hc1)).
        step_int. fold h1.
        rewrite (bind_val _ _ _ _ _ (store_cell _ v _ _ Hc2')).
        do 2 step_int. fold h2. rewrite Hrun. f_equal; lia.
      * intros t Ht. destruct (Z.eq_dec t i) as [-> | Hne].
        -- rewrite !Hframe.
           ++ unfold h2, h1. split.
              ** rewrite lookup_insert_ne
                   by (intros E; apply idx_inj in E; lia).
                 apply lookup_insert_eq.
              ** replace (2 * i + 2) with (2 * i + 1 + 1) by lia.
                 apply lookup_insert_eq.
           ++ intros s Hs E. apply idx_inj in E. lia.
           ++ intros s Hs E. apply idx_inj in E. lia.
        -- apply Hset. lia.
      * intros a Ha. rewrite Hframe.
        -- apply Hh2; apply Ha; lia.
        -- intros s Hs. apply Ha. lia.
Qed.

Lemma objfill_ok obj tag v n (h : heap) :
  h !! obj = Some (Word n) -> 0 <= n -> 1 + 2 * n <= INT_MAX ->
  (forall s, 1 <= s <= 2 * n -> is_Some (h !! idx obj s)) ->
  exists h',
    objfill obj tag v h = Val (tt, h') /\
    (forall t, 0 <= t < n ->
       h' !! idx obj (2 * t + 1) = Some (Word tag) /\
       h' !! idx obj (2 * t + 2) = Some (Word v)) /\
    (forall a, (forall s, 1 <= s <= 2 * n -> a <> idx obj s) ->
       h' !! a = h !! a).
Proof.
  intros Hobj Hn Hmax Hal. unfold objfill. rewrite idx_0. step_load.
  destruct (objfill_loop_run obj tag v n (Z.to_nat n) 1 0 1 h)
    as (h' & Hrun & Hset & Hframe); try lia.
  - intros s Hs. apply Hal. lia.
  - exists h'. split; [|split].
    + unfold loop_fuel.
      replace (S (Z.to_nat n)) with (Z.to_nat n + 1)%nat by lia.
      rewrite Hrun. rewrite objfill_loop_S.
      replace (0 + Z.of_nat (Z.to_nat n) <? n) with false
        by (symmetry; apply Z.ltb_ge; lia).
      reflexivity.
    + intros t Ht. apply Hset. lia.
    + intros a Ha. apply Hframe. intros s Hs. apply Ha. lia.
Qed.

Lemma objfill_overflow obj tag v n (h : heap) :
  h !! obj = Some (Word n) -> INT_MAX < 1 + 2 * n ->
  (forall s, 1 <= s <= 2 * n -> is_Some (h !! idx obj s)) ->
  objfill obj tag v h = Fault.
Proof.
  intros Hobj Hmax Hal. unfold objfill. rewrite idx_0. step_load.
  assert (LAST_PAIR = 1073741823) as HL by reflexivity.
  assert (exists k : nat, Z.of_nat k = LAST_PAIR) as [k Hk].
  { exists (Z.to_nat LAST_PAIR). rewrite Z2Nat.id; [reflexivity|lia]. }
  destruct (objfill_loop_run obj tag v n k (S (Z.to_nat n - k)) 0 1 h)
    as (h' & Hrun & Hset & Hframe); try int_lia.
  - intros s Hs. apply Hal. int_lia.
  - unfold loop_fuel.
    replace (S (Z.to_nat n)) with (k + S (Z.to_nat n - k))%nat by int_lia.
    rewrite Hrun. rewrite objfill_loop_S.
    replace (0 + Z.of_nat k <? n) with true
      by (symmetry; apply Z.ltb_lt; int_lia).
    destruct (Hal (2 * (0 + Z.of_nat k) + 1)) as [c Hc]; [int_lia|].
    rewrite <- Hframe in Hc.
    + rewrite (bind_val _ _ _ _ _ (store_cell _ tag _ _ Hc)).
      apply bind_fault. apply int_add_overflow. int_lia.
    + intros s Hs E. apply idx_inj in E. lia.
Qed.



(** ** Clones of well-formed objects *)

Lemma intcpy_ok x n (h : heap) :
  flat_array h x n -> 1 + n <= INT_MAX ->
  exists h',
    intcpy x h = Val (heap_top h, h') /\
    (forall t, 0 <= t <= n -> h' !! idx (heap_top h) t = h !! idx x t) /\
    (forall a, (forall t, 0 <= t <= n -> a <> idx (heap_top h) t) ->
       h' !! a = h !! a).
Proof.
  intros (Hx & Hn & Hs) Hmax. rewrite intcpy_unfold.
  rewrite idx_0. step_load.
  rewrite (bind_val _ _ _ _ _ (i64_add_ok 1 n h
    ltac:(unfold INT64_MIN, INT64_MAX; int_lia))).
  destruct (clone_tail_ok x (1 + n) h) as (h' & Hrun & Hcopied & Hframe).
  - lia.
  - intros t Ht. destruct (Z.eq_dec t 0) as [-> | Hne].
    + exists n. rewrite idx_0. exact Hx.
    + apply Hs. lia.
  - exists h'. split; [exact Hrun|]. split.
    + intros t Ht. apply Hcopied. lia.
    + intros a Ha. apply Hframe. intros t Ht. apply Ha. lia.
Qed.

Lemma objcpy_ok x n (h : heap) :
  tagged_object h x n -> 1 + 2 * n <= INT_MAX ->
  exists h',
    objcpy x h = Val (heap_top h, h') /\
    (forall t, 0 <= t <= 2 * n -> h' !! idx (heap_top h) t = h !! idx x t) /\
    (forall a, (forall t, 0 <= t <= 2 * n -> a <> idx (heap_top h) t) ->
       h' !! a = h !! a).
Proof.
  intros (Hx & Hn & Hs) Hmax. rewrite objcpy_unfold.
  rewrite idx_0. step_load.
  rewrite (bind_val _ _ _ _ _ (i64_mul_ok n 2 h
    ltac:(unfold INT64_MIN, INT64_MAX; int_lia))).
  rewrite (bind_val _ _ _ _ _ (i64_add_ok 1 (n * 2) h
    ltac:(unfold INT64_MIN, INT64_MAX; int_lia))).
  destruct (clone_tail_ok x (1 + n * 2) h) as (h' & Hrun & Hcopied & Hframe).
  - lia.
  - intros t Ht. destruct (Z.eq_dec t 0) as [-> | Hne].
    + exists n. rewrite idx_0. exact Hx.
    + apply Hs. lia.
  - exists h'. split; [exact Hrun|]. split.
    + intros t Ht. apply Hcopied. lia.
    + intros a Ha. apply Hframe. intros t Ht. apply Ha. lia.
Qed.

Lemma intcpy_overflow x n (h : heap) :
  flat_array h x n -> INT_MAX <= n -> n < INT64_MAX / WORD ->
  intcpy x h = Fault.
Proof.
  intros (Hx & Hn & Hs) Hmax Hsmall. rewrite intcpy_unfold.
  assert (INT64_MAX / WORD = 1152921504606846975) as E by reflexivity.
  rewrite idx_0. step_load.
  rewrite (bind_val _ _ _ _ _ (i64_add_ok 1 n h
    ltac:(unfold INT64_MIN, INT64_MAX; int_lia))).
  apply clone_tail_overflow.
  - lia.
  - unfold WORD, SIZE_MODULUS. lia.
  - intros t Ht. destruct (Z.eq_dec t 0) as [-> | Hne].
    + exists n. rewrite idx_0. exact Hx.
    + apply Hs. lia.
Qed.

Lemma objcpy_overflow x n (h : heap) :
  tagged_object h x n -> INT_MAX < 1 + 2 * n -> n < INT64_MAX / (2 * WORD) ->
  objcpy x h = Fault.
Proof.
  intros (Hx & Hn & Hs) Hmax Hsmall. rewrite objcpy_unfold.
  assert (INT64_MAX / (2 * WORD) = 576460752303423487) as E by reflexivity.
  rewrite idx_0. step_load.
  rewrite (bind_val _ _ _ _ _ (i64_mul_ok n 2 h
    ltac:(unfold INT64_MIN, INT64_MAX; int_lia))).
  rewrite (bind_val _ _ _ _ _ (i64_add_ok 1 (n * 2) h
    ltac:(unfold INT64_MIN, INT64_MAX; int_lia))).
  apply clone_tail_overflow.
  - lia.
  - unfold WORD, SIZE_MODULUS. lia.
  - intros t Ht. destruct (Z.eq_dec t 0) as [-> | Hne].
    + exists n. rewrite idx_0. exact Hx.
    + apply Hs. lia.
Qed.

Lemma intcpy_frame x c (h h' : heap) :
  intcpy x h = Val (c, h') ->
  c = heap_top h /\ forall a, is_Some (h !! a) -> h' !! a = h !! a.
Proof.
  rewrite intcpy_unfold. intros H.
  apply bind_inv in H as (len & h1 & H1 & H). apply load_inv in H1 as [_ ->].
  apply bind_inv in H as (n & h1 & H1 & H). apply i64_add_inv in H1 as [_ ->].
  eapply clone_tail_frame. exact H.
Qed.

Lemma objcpy_frame x c (h h' : heap) :
  objcpy x h = Val (c, h') ->
  c = heap_top h /\ forall a, is_Some (h !! a) -> h' !! a = h !! a.
Proof.
  rewrite objcpy_unfold. intros H.
  apply bind_inv in H as (len & h1 & H1 & H). apply load_inv in H1 as [_ ->].
  apply bind_inv in H as (l2 & h1 & H1 & H). apply i64_mul_inv in H1 as [_ ->].
  apply bind_inv in H as (n & h1 & H1 & H). apply i64_add_inv in H1 as [_ ->].
  eapply clone_tail_frame. exact H.
Qed.

(** ** Structurally identical objects *)

Lemma objcmp_same_shape (h : heap) : forall fuel d a b,
  same_shape h d a b -> int_indexable h d a -> (d <= fuel)%nat ->
  objcmp fuel a b h = Val (1, h).
Proof.
  induction fuel as [|fuel IH]; intros d a b Hshape Hrange Hd.
  - destruct d; [destruct Hshape | lia].
  - destruct d as [|d]; [destruct Hshape|].
    destruct Hshape as (n & Ha & Hb & Hn & Hpairs).
    destruct Hrange as (n' & Ha' & Hmax & Hnested).
    assert (n' = n) as -> by congruence.
    apply (objcmp_all_pass fuel a b n h Ha Hb Hmax).
    intros t Ht.
    destruct (Hpairs t Ht) as (tag & p1 & p2 & Hsa & Hsb & Hscalar & Hsub).
    exists tag, p1, tag, p2. split; [exact Hsa|]. split; [exact Hsb|].
    destruct (Z.eq_dec p1 p2) as [Heq | Hne]; [left; exact Heq|].
    right. destruct (Z.eq_dec tag 0) as [Ht0 | Ht0].
    + exfalso. apply Hne. apply Hscalar. exact Ht0.
    + repeat split; auto. exists 1. split; [|lia].
      apply (IH d p1 p2).
      * apply Hsub. exact Ht0.
      * eapply Hnested; eassumption.
      * lia.
Qed.

(** ** Facts about well-formed objects *)

Lemma flat_array_storage (h : heap) a n :
  flat_array h a n -> flat_storage h a n.
Proof.
  intros (Ha & Hn & Hs). split; [exact Ha|]. split; [exact Hn|].
  intros i Hi. destruct (Hs i Hi) as [v Hv]. exists (Word v). exact Hv.
Qed.

Lemma tagged_object_storage (h : heap) a n :
  tagged_object h a n -> tagged_storage h a n.
Proof.
  intros (Ha & Hn & Hs). split; [exact Ha|]. split; [exact Hn|].
  intros i Hi. destruct (Hs i Hi) as [v Hv]. exists (Word v). exact Hv.
Qed.

Lemma tagged_object_pair (h : heap) a n t :
  tagged_object h a n -> 0 <= t < n ->
  exists tag p, pair_slots h a t tag p.
Proof.
  intros (_ & _ & Hs) Ht.
  destruct (Hs (2 * t + 1)) as [tag Htag]; [lia|].
  destruct (Hs (2 * t + 2)) as [p Hp]; [lia|].
  exists tag, p. split; assumption.
Qed.

Lemma same_payload_passes rec (h : heap) a b t t1 t2 p :
  pair_slots h a t t1 p -> pair_slots h b t t2 p -> pair_passes rec h a b t.
Proof.
  intros Ha Hb. exists t1, p, t2, p. split; [exact Ha|]. split; [exact Hb|].
  left. reflexivity.
Qed.

(** A slot allocated before [malloc] is not in the block it returns. *)
Lemma old_slot_not_fresh (h : heap) a t :
  is_Some (h !! a) -> 0 <= t -> a <> idx (heap_top h) t.
Proof.
  intros [c Hc] Ht E. rewrite E in Hc.
  rewrite heap_top_fresh in Hc by exact Ht. discriminate.
Qed.

(** ** The huge heaps *)

Lemma tabulate_lookup base f w a t :
  a = idx base t -> 0 <= t < w ->
  tabulate base f w !! a = Some (Word (f t)).
Proof.
  intros -> Ht. unfold tabulate. apply elem_of_list_to_map_1.
  - rewrite <- list_fmap_compose. apply NoDup_fmap_2; [|apply NoDup_seqZ].
    intros x y E. cbn in E. apply idx_inj in E. exact E.
  - apply (list_elem_of_fmap_2 (fun t => (idx base t, Word (f t)))).
    apply elem_of_seqZ. lia.
Qed.

#[global] Opaque tabulate.

Lemma huge_constants :
  HUGE_FLAT_COUNT = 2147483648 /\ HUGE_PAIR_COUNT = 1073741824 /\
  TWIN_WORDS = 2147483649 /\ TWIN_A = 8 /\ TWIN_B = 17179869200 /\
  NEST_A = 34359738392 /\ NEST_B = 34359738400 /\ LAST_PAIR = 1073741823 /\
  HUGE_AT = 8.
Proof. repeat split; reflexivity. Qed.

Ltac huge_lia :=
  pose proof huge_constants; pose proof int_bounds; unfold idx, WORD in *; lia.

Ltac table_cases :=
  repeat match goal with
    | |- context [?x =? ?y] => destruct (Z.eqb_spec x y)
    | |- context [?x <? ?y] => destruct (Z.ltb_spec x y)
    end.

Lemma huge_flat_valid : flat_array huge_flat HUGE_AT HUGE_FLAT_COUNT.
Proof.
  unfold flat_array, huge_flat. split; [|split].
  - rewrite (tabulate_lookup _ _ _ HUGE_AT 0);
      [reflexivity|reflexivity|huge_lia].
  - huge_lia.
  - intros i Hi. eexists.
    apply (tabulate_lookup _ _ _ _ i); [reflexivity|lia].
Qed.

Lemma odd_tag t : Z.odd (2 * t + 1) = true.
Proof. rewrite Z.add_comm, Z.odd_add_mul_2. reflexivity. Qed.

Lemma even_payload t : Z.odd (2 * t + 2) = false.
Proof.
  replace (2 * t + 2) with (0 + 2 * (t + 1)) by lia.
  rewrite Z.odd_add_mul_2. reflexivity.
Qed.

Lemma twins_header_a last :
  huge_twins last !! TWIN_A = Some (Word HUGE_PAIR_COUNT).
Proof.
  unfold huge_twins.
  rewrite (tabulate_lookup _ _ _ TWIN_A 0); [reflexivity|reflexivity|huge_lia].
Qed.

Lemma twins_header_b last :
  huge_twins last !! TWIN_B = Some (Word HUGE_PAIR_COUNT).
Proof.
  unfold huge_twins.
  rewrite (tabulate_lookup _ _ _ TWIN_B TWIN_WORDS);
    [reflexivity|reflexivity|huge_lia].
Qed.

Lemma twins_pair_a last t :
  0 <= t < HUGE_PAIR_COUNT ->
  pair_slots (huge_twins last) TWIN_A t 1 NEST_A.
Proof.
  intros Ht. unfold pair_slots, huge_twins. split.
  - rewrite (tabulate_lookup _ _ _ _ (2 * t + 1)); [|huge_lia|huge_lia].
    unfold twin_table. rewrite odd_tag. table_cases; try huge_lia.
    reflexivity.
  - rewrite (tabulate_lookup _ _ _ _ (2 * t + 2)); [|huge_lia|huge_lia].
    unfold twin_table. rewrite even_payload. table_cases; try huge_lia.
    reflexivity.
Qed.

Lemma twins_pair_b last t :
  0 <= t < HUGE_PAIR_COUNT ->
  pair_slots (huge_twins last) TWIN_B t
    (if t =? LAST_PAIR then last else 1) NEST_B.
Proof.
  intros Ht. unfold pair_slots, huge_twins. split.
  - rewrite (tabulate_lookup _ _ _ _ (TWIN_WORDS + (2 * t + 1)));
      [|huge_lia|huge_lia].
    unfold twin_table.
    replace (TWIN_WORDS + (2 * t + 1) - TWIN_WORDS) with (2 * t + 1) by lia.
    rewrite odd_tag. table_cases; try huge_lia; reflexivity.
  - rewrite (tabulate_lookup _ _ _ _ (TWIN_WORDS + (2 * t + 2)));
      [|huge_lia|huge_lia].
    unfold twin_table.
    replace (TWIN_WORDS + (2 * t + 2) - TWIN_WORDS) with (2 * t + 2) by lia.
    rewrite even_payload. table_cases; try huge_lia; reflexivity.
Qed.

Lemma twins_nested last :
  huge_twins last !! NEST_A = Some (Word 0) /\
  huge_twins last !! NEST_B = Some (Word 0).
Proof.
  unfold huge_twins. split.
  - rewrite (tabulate_lookup _ _ _ _ (2 * TWIN_WORDS)); [|huge_lia|huge_lia].
    unfold twin_table. table_cases; try huge_lia; reflexivity.
  - rewrite (tabulate_lookup _ _ _ _ (2 * TWIN_WORDS + 1)); [|huge_lia|huge_lia].
    unfold twin_table. table_cases; try huge_lia; reflexivity.
Qed.

Lemma twins_valid_a last :
  tagged_object (huge_twins last) TWIN_A HUGE_PAIR_COUNT.
Proof.
  split; [apply twins_header_a|]. split; [huge_lia|].
  intros i Hi. eexists. unfold huge_twins.
  apply (tabulate_lookup _ _ _ _ i); [huge_lia|huge_lia].
Qed.

Lemma twins_valid_b last :
  tagged_object (huge_twins last) TWIN_B HUGE_PAIR_COUNT.
Proof.
  split; [apply twins_header_b|]. split; [huge_lia|].
  intros i Hi. eexists. unfold huge_twins.
  apply (tabulate_lookup _ _ _ _ (TWIN_WORDS + i)); [huge_lia|huge_lia].
Qed.

Lemma twins_nested_equal last d :
  objcmp (S d) NEST_A NEST_B (huge_twins last) = Val (1, huge_twins last).
Proof.
  destruct (twins_nested last) as [Ha Hb].
  apply (objcmp_all_pass d NEST_A NEST_B 0 _ Ha Hb); [int_lia|].
  intros t Ht. exfalso. lia.
Qed.

(** ** The example heaps *)

(** Small case analysis on an index of a concrete range. *)
Ltac cases_from i k n :=
  match n with
  | O => exfalso; lia
  | S ?n' =>
      destruct (Z.eq_dec i k) as [-> | ?];
      [ | let k' := eval compute in (k + 1) in cases_from i k' n' ]
  end.

Lemma nested_heap_shape : same_shape nested_heap 2 0 24.
Proof.
  exists 1. split; [reflexivity|]. split; [reflexivity|]. split; [lia|].
  intros t Ht. assert (t = 0) as -> by lia.
  exists 7, 48, 72. split; [split; reflexivity|].
  split; [split; reflexivity|]. split; [lia|]. intros _.
  exists 1. split; [reflexivity|]. split; [reflexivity|]. split; [lia|].
  intros t Ht'. assert (t = 0) as -> by lia.
  exists 0, 5, 5. split; [split; reflexivity|].
  split; [split; reflexivity|]. split; [reflexivity|]. intros H0. lia.
Defined.

Lemma nested_heap_indexable : int_indexable nested_heap 2 0.
Proof.
  exists 1. split; [reflexivity|]. split; [unfold INT_MAX; lia|].
  intros t tag p Ht [Htag Hp] Hne. assert (t = 0) as -> by lia.
  assert (p = 48) as -> by (vm_compute in Hp; congruence).
  exists 1. split; [reflexivity|]. split; [unfold INT_MAX; lia|].
  intros t tag' p' Ht' [Htag' Hp'] Hne'. exact I.
Defined.

(** ** Deciding a comparison *)

(** In a range where [P] is decided point by point, [P] holds throughout
    or fails at a first index. *)
Lemma first_failure (P : Z -> Prop) (k : nat) :
  (forall t, 0 <= t < Z.of_nat k -> P t \/ ~ P t) ->
  (forall t, 0 <= t < Z.of_nat k -> P t) \/
  (exists i, 0 <= i < Z.of_nat k /\ ~ P i /\ forall t, 0 <= t < i -> P t).
Proof.
  induction k as [|k IH]; intros Hdec.
  - left. intros t Ht. lia.
  - rewrite Nat2Z.inj_succ in *.
    destruct IH as [Hall | (i & Hi & Hni & Hbefore)].
    + intros t Ht. apply Hdec. lia.
    + destruct (Hdec (Z.of_nat k)) as [Hk | Hk]; [lia| |].
      * left. intros t Ht.
        destruct (Z.eq_dec t (Z.of_nat k)) as [-> | Hne]; [exact Hk|].
        apply Hall. lia.
      * right. exists (Z.of_nat k). split; [lia|]. split; [exact Hk|].
        intros t Ht. apply Hall. lia.
    + right. exists i. split; [lia|]. split; [exact Hni | exact Hbefore].
Qed.

Lemma intcmp_mismatch a b n i x y (h : heap) :
  h !! a = Some (Word n) -> h !! b = Some (Word n) ->
  1 <= i <= n -> i <= INT_MAX ->
  (forall t, 1 <= t < i ->
     exists v, h !! idx a t = Some (Word v) /\ h !! idx b t = Some (Word v)) ->
  h !! idx a i = Some (Word x) -> h !! idx b i = Some (Word y) -> x <> y ->
  intcmp a b h = Val (0, h).
Proof.
  intros Ha Hb Hi Hmax Heq Hx Hy Hne. unfold intcmp.
  do 2 step_load. rewrite Z.eqb_refl. cbn [negb].
  assert (exists k : nat, Z.of_nat k = i - 1) as [k Hk].
  { exists (Z.to_nat (i - 1)). lia. }
  unfold loop_fuel.
  replace (S (Z.to_nat n)) with (k + S (Z.to_nat n - k))%nat by lia.
  rewrite (intcmp_loop_run k _ a b n 0 1 h); try lia.
  - rewrite intcmp_loop_S.
    replace (0 + Z.of_nat k <? n) with true by (symmetry; apply Z.ltb_lt; lia).
    replace (0 + Z.of_nat k + 1) with i by lia.
    do 2 step_load.
    replace (x =? y) with false by (symmetry; apply Z.eqb_neq; exact Hne).
    reflexivity.
  - intros t Ht. apply Heq. lia.
Qed.

Lemma intcmp_decides a b n m (h : heap) :
  flat_array h a n -> flat_array h b m -> 1 + n <= INT_MAX ->
  (n = m /\ (forall i, 1 <= i <= n -> h !! idx a i = h !! idx b i) /\
   intcmp a b h = Val (1, h)) \/
  ((n <> m \/ exists i, 1 <= i <= n /\ h !! idx a i <> h !! idx b i) /\
   intcmp a b h = Val (0, h)).
Proof.
  intros (Ha & Hn & Hsa) (Hb & Hm & Hsb) Hmax.
  destruct (Z.eq_dec n m) as [<- | Hnm].
  - assert (exists k : nat, Z.of_nat k = n) as [k Hk].
    { exists (Z.to_nat n). lia. }
    destruct (first_failure
                (fun t => h !! idx a (t + 1) = h !! idx b (t + 1)) k)
      as [Hall | (i & Hi & Hni & Hbefore)].
    + intros t Ht.
      destruct (Hsa (t + 1)) as [x Hx]; [lia|].
      destruct (Hsb (t + 1)) as [y Hy]; [lia|].
      rewrite Hx, Hy. destruct (Z.eq_dec x y) as [-> | Hne].
      * left. reflexivity.
      * right. congruence.
    + left. split; [reflexivity|].
      assert (forall i, 1 <= i <= n -> h !! idx a i = h !! idx b i) as Hsame.
      { intros i Hi. replace i with (i - 1 + 1) by lia. apply Hall. lia. }
      split; [exact Hsame|].
      apply (intcmp_equal a b n h Ha Hb Hn Hmax).
      intros t Ht. destruct (Hsa t Ht) as [v Hv]. exists v.
      split; [exact Hv|]. rewrite <- Hsame by exact Ht. exact Hv.
    + right. split.
      * right. exists (i + 1). split; [lia | exact Hni].
      * destruct (Hsa (i + 1)) as [x Hx]; [lia|].
        destruct (Hsb (i + 1)) as [y Hy]; [lia|].
        apply (intcmp_mismatch a b n (i + 1) x y h Ha Hb); try lia;
          try assumption.
        -- intros t Ht. destruct (Hsa t) as [v Hv]; [lia|]. exists v.
           split; [exact Hv|].
           replace t with (t - 1 + 1) in * by lia.
           rewrite <- Hbefore by lia. exact Hv.
        -- intros E. apply Hni. rewrite Hx, Hy, E. reflexivity.
  - right. split; [left; exact Hnm|].
    unfold intcmp. do 2 step_load.
    replace (n =? m) with false by (symmetry; apply Z.eqb_neq; exact Hnm).
    reflexivity.
Qed.




(** Two distinct objects whose first pairs carry the same nonzero tag
    and point back to the objects themselves: the comparison calls itself
    on the same two objects, at every depth. *)
Lemma objcmp_self_reference (h : heap) a b n t :
  h !! a = Some (Word n) -> h !! b = Some (Word n) -> 1 <= n ->
  pair_slots h a 0 t a -> pair_slots h b 0 t b -> t <> 0 -> a <> b ->
  forall d, objcmp d a b h = OutOfFuel.
Proof.
  intros Ha Hb Hn [Hta Hpa] [Htb Hpb] Ht Hab.
  replace (2 * 0 + 1) with 1 in * by lia.
  replace (2 * 0 + 2) with (1 + 1) in * by lia.
  induction d as [|d IH]; [reflexivity|].
  rewrite objcmp_S. do 2 step_load. rewrite Z.eqb_refl. cbn [negb].
  unfold loop_fuel. rewrite objcmp_loop_S.
  replace (0 <? n) with true by (symmetry; apply Z.ltb_lt; lia).
  do 2 step_load. step_int.
  apply bind_out_of_fuel. unfold objcmp_pair. do 2 step_load.
  replace (a =? b) with false by (symmetry; apply Z.eqb_neq; exact Hab).
  rewrite Z.eqb_refl.
  replace (t =? 0) with false by (symmetry; apply Z.eqb_neq; exact Ht).
  cbn [negb orb]. do 2 step_load.
  apply bind_out_of_fuel. exact IH.
Qed.

(** * Properties of the specification *)

(** The examples of the specification. *)

Example flat_A_equals_B :
  intcmp 0 32 flat_A_B_C = Val (1, flat_A_B_C).
Proof. vm_compute. reflexivity. Qed.

Example flat_A_differs_from_C :
  intcmp 0 64 flat_A_B_C = Val (0, flat_A_B_C).
Proof. vm_compute. reflexivity. Qed.

Example tagged_equal_scalars :
  objcmp 1 0 48 tagged_A_B_A = Val (1, tagged_A_B_A).
Proof. vm_compute. reflexivity. Qed.

Example tagged_different_scalars :
  objcmp 1 0 24 tagged_A_B_A = Val (0, tagged_A_B_A).
Proof. vm_compute. reflexivity. Qed.

Example nested_objects_equal :
  objcmp 2 0 24 nested_heap = Val (1, nested_heap).
Proof. vm_compute. reflexivity. Qed.

Example nested_objects_need_depth :
  objcmp 1 0 24 nested_heap = OutOfFuel.
Proof. vm_compute. reflexivity. Qed.

Example clone_of_flat_A :
  intcpy 0 flat_A = Val (32, flat_A_cloned).
Proof. vm_compute. reflexivity. Qed.

Example fill_of_flat_A :
  intfill 0 9 flat_A = Val (tt, heap_of [(0, [3; 9; 9; 9])]).
Proof. vm_compute. reflexivity. Qed.

(** The order of the tests on a pair, within the range of [int].  For
    two tagged objects of equal count [n] with at most [INT_MAX] words
    each: a pair passes when its payload words are equal, whatever the
    tags, or when they differ, the tags are equal and nonzero and the
    nested comparison does not answer 0; it fails when the payloads
    differ and the tags differ or are 0 -- the nested comparison is then
    not consulted -- or the nested comparison answers 0.  [objcmp]
    answers 0 at the first failing pair, whatever follows it, and
    answers 1 exactly when every pair passes. *)
Theorem objcmp_pair_order (h : heap) d a b n :
  h !! a = Some (Word n) -> h !! b = Some (Word n) ->
  1 + 2 * n <= INT_MAX ->
  (forall i, 0 <= i < n ->
     (forall t, 0 <= t < i -> pair_passes (objcmp d) h a b t) ->
     pair_fails (objcmp d) h a b i ->
     objcmp (S d) a b h = Val (0, h)) /\
  ((forall t, 0 <= t < n -> pair_passes (objcmp d) h a b t) <->
   objcmp (S d) a b h = Val (1, h)).
Proof.
  intros Ha Hb Hmax. split; [|split].
  - intros i Hi Hpass Hfail.
    exact (objcmp_first_failure d a b n i h Ha Hb Hmax Hi Hpass Hfail).
  - intros Hpass. exact (objcmp_all_pass d a b n h Ha Hb Hmax Hpass).
  - intros H.
    exact (objcmp_result_1 d a b n h h (read_only_objcmp d) Ha Hb H).
Qed.

Lemma objcmp_pair_order_witness :
  objcmp 1 0 24 tagged_A_B = Val (0, tagged_A_B).
Proof.
  apply (proj1 (objcmp_pair_order tagged_A_B 0 0 24 1
                  eq_refl eq_refl ltac:(unfold INT_MAX; lia)) 0).
  - lia.
  - intros t Ht. lia.
  - exists 0, 5, 0, 6. split; [split; reflexivity|].
    split; [split; reflexivity|]. split; [lia|]. left. right. reflexivity.
Defined.

(** C1 -- the order of the tests on a pair, at objects [int] cannot
    index.  A pair whose payloads differ and whose tags differ must make
    [objcmp] return 0.  In the well-formed objects of 2^30 pairs at
    [TWIN_A] and [TWIN_B] every pair before the last passes (equal
    nonzero tags, nested objects that compare equal) and the last pair
    has different payloads and the different tags 1 and 2; yet [objcmp]
    does not return 0: when the tags of the last pair are read, [j++]
    takes the [int] index [j] past [INT_MAX], against the [int64_t]
    count. *)
Lemma objcmp_pair_order_beyond_int :
  tagged_object (huge_twins 2) TWIN_A HUGE_PAIR_COUNT /\
  tagged_object (huge_twins 2) TWIN_B HUGE_PAIR_COUNT /\
  (forall t, 0 <= t < LAST_PAIR ->
     pair_passes (objcmp 1) (huge_twins 2) TWIN_A TWIN_B t) /\
  pair_fails (objcmp 1) (huge_twins 2) TWIN_A TWIN_B LAST_PAIR /\
  objcmp 2 TWIN_A TWIN_B (huge_twins 2) = Fault.
Proof.
  assert (forall t, 0 <= t < LAST_PAIR ->
            pair_passes (objcmp 1) (huge_twins 2) TWIN_A TWIN_B t) as Hpass.
  { intros t Ht. exists 1, NEST_A, 1, NEST_B.
    split; [apply twins_pair_a; huge_lia|]. split.
    - pose proof (twins_pair_b 2 t ltac:(huge_lia)) as Hb.
      replace (t =? LAST_PAIR) with false in Hb
        by (symmetry; apply Z.eqb_neq; lia).
      exact Hb.
    - right. split; [huge_lia|]. split; [reflexivity|]. split; [lia|].
      exists 1. split; [apply twins_nested_equal | lia]. }
  pose proof (twins_pair_a 2 LAST_PAIR ltac:(huge_lia)) as Hlast_a.
  pose proof (twins_pair_b 2 LAST_PAIR ltac:(huge_lia)) as Hlast_b.
  rewrite Z.eqb_refl in Hlast_b.
  split; [apply twins_valid_a|]. split; [apply twins_valid_b|].
  split; [exact Hpass|]. split.
  - exists 1, NEST_A, 2, NEST_B. split; [exact Hlast_a|].
    split; [exact Hlast_b|]. split; [huge_lia|]. left. left. lia.
  - apply (objcmp_overflow 1 TWIN_A TWIN_B HUGE_PAIR_COUNT 1 2 _
             (twins_header_a 2) (twins_header_b 2)
             ltac:(huge_lia) Hpass).
    + apply Hlast_a.
    + apply Hlast_b.
Qed.

(** C2 -- length short-circuit.  When the two header words differ,
    [intcmp] and [objcmp] answer 0 and leave the heap as it is.  The heap
    is arbitrary apart from the two headers: payload slots may be
    unallocated, where any read would be a fault, so no payload word is
    read. *)
Theorem count_mismatch_short_circuit (h : heap) a b n1 n2 :
  h !! a = Some (Word n1) -> h !! b = Some (Word n2) -> n1 <> n2 ->
  intcmp a b h = Val (0, h) /\ forall d, objcmp (S d) a b h = Val (0, h).
Proof.
  intros Ha Hb Hne. split.
  - unfold intcmp. do 2 step_load.
    replace (n1 =? n2) with false by (symmetry; apply Z.eqb_neq; exact Hne).
    reflexivity.
  - intros d. rewrite objcmp_S. do 2 step_load.
    replace (n1 =? n2) with false by (symmetry; apply Z.eqb_neq; exact Hne).
    reflexivity.
Qed.

Lemma count_mismatch_short_circuit_witness :
  intcmp 0 32 headers_only = Val (0, headers_only) /\
  forall d, objcmp (S d) 0 32 headers_only = Val (0, headers_only).
Proof.
  apply (count_mismatch_short_circuit headers_only 0 32 3 4).
  - reflexivity.
  - reflexivity.
  - lia.
Defined.

(** Reflexivity within the range of [int]: a flat array whose 1 + n
    words, and a tagged object whose 1 + 2n words, number at most
    [INT_MAX] compares equal to itself. *)
Theorem compare_reflexive (h : heap) x n :
  (flat_array h x n -> 1 + n <= INT_MAX -> intcmp x x h = Val (1, h)) /\
  (tagged_object h x n -> 1 + 2 * n <= INT_MAX ->
   forall d, objcmp (S d) x x h = Val (1, h)).
Proof.
  split.
  - intros (Hx & Hn & Hs) Hmax. apply (intcmp_equal x x n h); auto.
    intros t Ht. destruct (Hs t Ht) as [v Hv]. exists v. split; exact Hv.
  - intros Hobj Hmax d. pose proof Hobj as (Hx & Hn & Hs).
    apply (objcmp_all_pass d x x n h Hx Hx Hmax).
    intros t Ht. destruct (tagged_object_pair h x n t Hobj Ht) as (tag & p & Hp).
    eapply same_payload_passes; exact Hp.
Qed.

Lemma compare_reflexive_witness :
  intcmp 0 0 flat_A = Val (1, flat_A) /\
  forall d, objcmp (S d) 0 0 tagged_A_B = Val (1, tagged_A_B).
Proof.
  split.
  - apply (proj1 (compare_reflexive flat_A 0 3)).
    + split; [reflexivity|]. split; [lia|].
      intros i Hi. cases_from i 1 3%nat; eexists; reflexivity.
    + unfold INT_MAX. lia.
  - apply (proj2 (compare_reflexive tagged_A_B 0 1)).
    + split; [reflexivity|]. split; [lia|].
      intros i Hi. cases_from i 1 2%nat; eexists; reflexivity.
    + unfold INT_MAX. lia.
Defined.

(** C3 -- reflexivity, at objects [int] cannot index.  A well-formed
    object must compare equal to itself.  On the well-formed flat array
    of 2^31 elements at [HUGE_AT] and on the well-formed tagged object of
    2^30 pairs at [TWIN_A] the comparison with itself does not return 1:
    the [int] index [j] is taken past [INT_MAX], against the [int64_t]
    count. *)
Lemma compare_reflexive_beyond_int :
  flat_array huge_flat HUGE_AT HUGE_FLAT_COUNT /\
  intcmp HUGE_AT HUGE_AT huge_flat = Fault /\
  tagged_object (huge_twins 1) TWIN_A HUGE_PAIR_COUNT /\
  objcmp 1 TWIN_A TWIN_A (huge_twins 1) = Fault.
Proof.
  split; [apply huge_flat_valid|]. split; [|split; [apply twins_valid_a|]].
  - apply (intcmp_overflow HUGE_AT HUGE_FLAT_COUNT);
      [apply huge_flat_valid|huge_lia].
  - destruct (twins_pair_a 1 LAST_PAIR) as [Htag _]; [huge_lia|].
    apply (objcmp_overflow 0 TWIN_A TWIN_A HUGE_PAIR_COUNT 1 1).
    + apply twins_header_a.
    + apply twins_header_a.
    + huge_lia.
    + intros t Ht. eapply same_payload_passes; apply twins_pair_a; huge_lia.
    + exact Htag.
    + exact Htag.
Qed.

(** C4 -- symmetry.  [intcmp] and [objcmp] give the same outcome when
    their arguments are exchanged, for all addresses and heaps and at
    every recursion depth. *)
Theorem compare_symmetric (h : heap) a b :
  intcmp a b h = intcmp b a h /\ forall d, objcmp d a b h = objcmp d b a h.
Proof.
  split; [apply intcmp_sym | intros d; apply objcmp_sym].
Qed.

(** Clone fidelity within the range of [int]: the clone of a flat
    array of at most [INT_MAX] words (of a tagged object of at most
    [INT_MAX] words) is returned at an address other than the source's,
    is a well-formed object of the same count, and compares equal to the
    source in the heap after the call. *)
Theorem clone_fidelity (h : heap) x n :
  (flat_array h x n -> 1 + n <= INT_MAX ->
   exists c h',
     intcpy x h = Val (c, h') /\ c <> x /\ flat_array h' c n /\
     intcmp x c h' = Val (1, h')) /\
  (tagged_object h x n -> 1 + 2 * n <= INT_MAX ->
   exists c h',
     objcpy x h = Val (c, h') /\ c <> x /\ tagged_object h' c n /\
     forall d, objcmp (S d) x c h' = Val (1, h')).
Proof.
  split.
  - intros Hobj Hmax. pose proof Hobj as (Hx & Hn & Hs).
    destruct (intcpy_ok x n h Hobj Hmax) as (h' & Hrun & Hcopied & Hframe).
    assert (forall t, 0 <= t <= n ->
              exists v, h' !! idx x t = Some (Word v) /\
                        h' !! idx (heap_top h) t = Some (Word v)) as Hboth.
    { intros t Ht.
      assert (exists v, h !! idx x t = Some (Word v)) as [v Hv].
      { destruct (Z.eq_dec t 0) as [-> | Hne].
        - exists n. rewrite idx_0. exact Hx.
        - apply Hs. lia. }
      exists v. split.
      - rewrite Hframe; [exact Hv|]. intros t' Ht'.
        apply old_slot_not_fresh; [exists (Word v); exact Hv | lia].
      - rewrite Hcopied by exact Ht. exact Hv. }
    assert (h' !! x = Some (Word n) /\ h' !! heap_top h = Some (Word n)) as [Hx' Hc'].
    { destruct (Hboth 0) as (v & H1 & H2); [lia|].
      rewrite idx_0 in H1, H2.
      assert (h' !! x = h !! x) as E.
      { apply Hframe. intros t' Ht'.
        apply old_slot_not_fresh; [exists (Word n); exact Hx | lia]. }
      assert (v = n) as -> by congruence.
      split; [exact H1 | exact H2]. }
    exists (heap_top h), h'. split; [exact Hrun|]. split; [|split].
    + apply not_eq_sym. rewrite <- (idx_0 (heap_top h)).
      apply old_slot_not_fresh; [exists (Word n); exact Hx | lia].
    + split; [exact Hc'|]. split; [exact Hn|].
      intros i Hi. destruct (Hboth i) as (v & _ & Hv); [lia|]. eauto.
    + apply (intcmp_equal x (heap_top h) n h' Hx' Hc' Hn Hmax).
      intros t Ht. apply Hboth. lia.
  - intros Hobj Hmax. pose proof Hobj as (Hx & Hn & Hs).
    destruct (objcpy_ok x n h Hobj Hmax) as (h' & Hrun & Hcopied & Hframe).
    assert (forall t, 0 <= t <= 2 * n ->
              exists v, h' !! idx x t = Some (Word v) /\
                        h' !! idx (heap_top h) t = Some (Word v)) as Hboth.
    { intros t Ht.
      assert (exists v, h !! idx x t = Some (Word v)) as [v Hv].
      { destruct (Z.eq_dec t 0) as [-> | Hne].
        - exists n. rewrite idx_0. exact Hx.
        - apply Hs. lia. }
      exists v. split.
      - rewrite Hframe; [exact Hv|]. intros t' Ht'.
        apply old_slot_not_fresh; [exists (Word v); exact Hv | lia].
      - rewrite Hcopied by exact Ht. exact Hv. }
    assert (h' !! x = Some (Word n) /\ h' !! heap_top h = Some (Word n)) as [Hx' Hc'].
    { destruct (Hboth 0) as (v & H1 & H2); [lia|].
      rewrite idx_0 in H1, H2.
      assert (h' !! x = h !! x) as E.
      { apply Hframe. intros t' Ht'.
        apply old_slot_not_fresh; [exists (Word n); exact Hx | lia]. }
      assert (v = n) as -> by congruence.
      split; [exact H1 | exact H2]. }
    exists (heap_top h), h'. split; [exact Hrun|]. split; [|split].
    + apply not_eq_sym. rewrite <- (idx_0 (heap_top h)).
      apply old_slot_not_fresh; [exists (Word n); exact Hx | lia].
    + split; [exact Hc'|]. split; [exact Hn|].
      intros i Hi. destruct (Hboth i) as (v & _ & Hv); [lia|]. eauto.
    + intros d. apply (objcmp_all_pass d x (heap_top h) n h' Hx' Hc' Hmax).
      intros t Ht.
      destruct (Hboth (2 * t + 1)) as (tag & Ht1 & Ht2); [lia|].
      destruct (Hboth (2 * t + 2)) as (p & Hp1 & Hp2); [lia|].
      apply (same_payload_passes _ h' x (heap_top h) t tag tag p); split; assumption.
Qed.

Lemma clone_fidelity_witness :
  (exists c h',
     intcpy 0 flat_A = Val (c, h') /\ c <> 0 /\ flat_array h' c 3 /\
     intcmp 0 c h' = Val (1, h')) /\
  (exists c h',
     objcpy 0 nested_heap = Val (c, h') /\ c <> 0 /\ tagged_object h' c 1 /\
     forall d, objcmp (S d) 0 c h' = Val (1, h')).
Proof.
  split.
  - apply (proj1 (clone_fidelity flat_A 0 3)).
    + split; [reflexivity|]. split; [lia|].
      intros i Hi. cases_from i 1 3%nat; eexists; reflexivity.
    + unfold INT_MAX. lia.
  - apply (proj2 (clone_fidelity nested_heap 0 1)).
    + split; [reflexivity|]. split; [lia|].
      intros i Hi. cases_from i 1 2%nat; eexists; reflexivity.
    + unfold INT_MAX. lia.
Defined.

(** C5 -- clone fidelity, at objects [int] cannot index.  A well-formed
    object must have a clone that compares equal to it.  On the
    well-formed flat array of 2^31 elements at [HUGE_AT] and on the
    well-formed tagged object of 2^30 pairs at [TWIN_A] neither
    [intcpy] nor [objcpy] returns a clone: [++i] takes the [int] counter
    of the copy loop past [INT_MAX], against the [int64_t] number of
    words. *)
Lemma clone_fidelity_beyond_int :
  flat_array huge_flat HUGE_AT HUGE_FLAT_COUNT /\
  intcpy HUGE_AT huge_flat = Fault /\
  tagged_object (huge_twins 1) TWIN_A HUGE_PAIR_COUNT /\
  objcpy TWIN_A (huge_twins 1) = Fault.
Proof.
  split; [apply huge_flat_valid|]. split; [|split; [apply twins_valid_a|]].
  - apply (intcpy_overflow HUGE_AT HUGE_FLAT_COUNT);
      [apply huge_flat_valid| |].
    + huge_lia.
    + assert (INT64_MAX / WORD = 1152921504606846975) as E by reflexivity.
      huge_lia.
  - apply (objcpy_overflow TWIN_A HUGE_PAIR_COUNT); [apply twins_valid_a| |].
    + huge_lia.
    + assert (INT64_MAX / (2 * WORD) = 576460752303423487) as E
        by reflexivity.
      huge_lia.
Qed.

(** Fill uniformity within the range of [int]: on a flat array of
    count [n] with at most [INT_MAX] words [intfill] returns, every
    payload slot then reads the value, the header still reads [n] and
    every other slot of the heap is as before; likewise [objfill] on a
    tagged object, whose every pair then reads (tag, value). *)
Theorem fill_uniform (h : heap) a n :
  (flat_storage h a n -> 1 + n <= INT_MAX ->
   forall v, exists h',
     intfill a v h = Val (tt, h') /\
     (forall i, 1 <= i <= n -> h' !! idx a i = Some (Word v)) /\
     h' !! a = Some (Word n) /\
     (forall k, (forall i, 1 <= i <= n -> k <> idx a i) ->
        h' !! k = h !! k)) /\
  (tagged_storage h a n -> 1 + 2 * n <= INT_MAX ->
   forall tag v, exists h',
     objfill a tag v h = Val (tt, h') /\
     (forall i, 0 <= i < n -> pair_slots h' a i tag v) /\
     h' !! a = Some (Word n) /\
     (forall k, (forall s, 1 <= s <= 2 * n -> k <> idx a s) ->
        h' !! k = h !! k)).
Proof.
  split.
  - intros (Ha & Hn & Hs) Hmax v.
    destruct (intfill_ok a v n h Ha Hn Hmax Hs) as (h' & Hrun & Hset & Hframe).
    exists h'. split; [exact Hrun|]. split; [exact Hset|].
    split; [|exact Hframe].
    rewrite Hframe; [exact Ha|].
    intros i Hi E. rewrite <- (idx_0 a) in E at 1. apply idx_inj in E. lia.
  - intros (Ha & Hn & Hs) Hmax tag v.
    destruct (objfill_ok a tag v n h Ha Hn Hmax Hs)
      as (h' & Hrun & Hset & Hframe).
    exists h'. split; [exact Hrun|]. split; [exact Hset|].
    split; [|exact Hframe].
    rewrite Hframe; [exact Ha|].
    intros i Hi E. rewrite <- (idx_0 a) in E at 1. apply idx_inj in E. lia.
Qed.

Lemma fill_uniform_witness :
  (exists h',
     intfill 0 9 flat_A = Val (tt, h') /\
     (forall i, 1 <= i <= 3 -> h' !! idx 0 i = Some (Word 9)) /\
     h' !! 0 = Some (Word 3) /\
     (forall k, (forall i, 1 <= i <= 3 -> k <> idx 0 i) ->
        h' !! k = flat_A !! k)) /\
  (exists h',
     objfill 0 4 9 nested_heap = Val (tt, h') /\
     (forall i, 0 <= i < 1 -> pair_slots h' 0 i 4 9) /\
     h' !! 0 = Some (Word 1) /\
     (forall k, (forall s, 1 <= s <= 2 * 1 -> k <> idx 0 s) ->
        h' !! k = nested_heap !! k)).
Proof.
  split.
  - apply (proj1 (fill_uniform flat_A 0 3)).
    + split; [reflexivity|]. split; [lia|].
      intros i Hi. cases_from i 1 3%nat; eexists; reflexivity.
    + unfold INT_MAX. lia.
  - apply (proj2 (fill_uniform nested_heap 0 1)).
    + split; [reflexivity|]. split; [lia|].
      intros i Hi. cases_from i 1 2%nat; eexists; reflexivity.
    + unfold INT_MAX. lia.
Defined.

(** C6 -- fill uniformity, at objects [int] cannot index.  After a fill
    every slot must read the value.  On the flat array of 2^31 elements
    at [HUGE_AT] and on the tagged object of 2^30 pairs at [TWIN_A]
    neither [intfill] nor [objfill] returns: [j++] takes the [int] index
    [j] past [INT_MAX], against the [int64_t] count. *)
Lemma fill_uniform_beyond_int :
  flat_storage huge_flat HUGE_AT HUGE_FLAT_COUNT /\
  intfill HUGE_AT 9 huge_flat = Fault /\
  tagged_storage (huge_twins 1) TWIN_A HUGE_PAIR_COUNT /\
  objfill TWIN_A 4 9 (huge_twins 1) = Fault.
Proof.
  pose proof (flat_array_storage _ _ _ huge_flat_valid) as Hflat.
  pose proof (tagged_object_storage _ _ _ (twins_valid_a 1)) as Htag.
  split; [exact Hflat|]. split; [|split; [exact Htag|]].
  - destruct Hflat as (Ha & Hn & Hs).
    apply (intfill_overflow HUGE_AT 9 HUGE_FLAT_COUNT _ Ha);
      [huge_lia|exact Hs].
  - destruct Htag as (Ha & Hn & Hs).
    apply (objfill_overflow TWIN_A 4 9 HUGE_PAIR_COUNT _ Ha);
      [huge_lia|exact Hs].
Qed.



(** Nested equality within the range of [int]: two tagged objects that
    are structurally identical within depth [d] -- equal counts, equal
    tags, equal scalars, and under every nonzero tag structurally
    identical nested objects, at whatever addresses -- compare equal at
    every recursion depth from [d] on, provided each object met takes at
    most [INT_MAX] words. *)
Theorem nested_equality (h : heap) d a b :
  same_shape h d a b -> int_indexable h d a ->
  forall fuel, (d <= fuel)%nat -> objcmp fuel a b h = Val (1, h).
Proof.
  intros Hshape Hrange fuel Hd.
  exact (objcmp_same_shape h fuel d a b Hshape Hrange Hd).
Qed.

Lemma nested_equality_witness :
  48 <> 72 /\ objcmp 2 0 24 nested_heap = Val (1, nested_heap).
Proof.
  split; [lia|].
  apply (nested_equality nested_heap 2 0 24).
  - exact nested_heap_shape.
  - exact nested_heap_indexable.
  - lia.
Defined.

(** C8 -- nested equality, at objects [int] cannot index.  Structurally
    identical objects must compare equal.  The objects at [TWIN_A] and
    [TWIN_B] are structurally identical, all their 2^30 pairs carry the
    tag 1 and point to empty objects at the distinct addresses [NEST_A]
    and [NEST_B]; yet their comparison does not return 1 at any
    recursion depth: [j++] takes the [int] index [j] past [INT_MAX],
    against the [int64_t] count. *)
Lemma nested_equality_beyond_int :
  same_shape (huge_twins 1) 2 TWIN_A TWIN_B /\
  NEST_A <> NEST_B /\
  forall d, objcmp (S (S d)) TWIN_A TWIN_B (huge_twins 1) = Fault.
Proof.
  split; [|split].
  - exists HUGE_PAIR_COUNT. split; [apply twins_header_a|].
    split; [apply twins_header_b|]. split; [huge_lia|].
    intros t Ht. exists 1, NEST_A, NEST_B.
    split; [apply twins_pair_a; exact Ht|]. split.
    + pose proof (twins_pair_b 1 t Ht) as Hb.
      destruct (t =? LAST_PAIR); exact Hb.
    + split; [lia|]. intros _.
      exists 0. destruct (twins_nested 1) as [Ha Hb].
      split; [exact Ha|]. split; [exact Hb|]. split; [lia|].
      intros t' Ht'. exfalso. lia.
  - huge_lia.
  - intros d.
    destruct (twins_pair_a 1 LAST_PAIR) as [Htag_a _]; [huge_lia|].
    destruct (twins_pair_b 1 LAST_PAIR) as [Htag_b _]; [huge_lia|].
    rewrite Z.eqb_refl in Htag_b.
    apply (objcmp_overflow (S d) TWIN_A TWIN_B HUGE_PAIR_COUNT 1 1 _
             (twins_header_a 1) (twins_header_b 1)
             ltac:(huge_lia)); [|exact Htag_a|exact Htag_b].
    intros t Ht. exists 1, NEST_A, 1, NEST_B.
    split; [apply twins_pair_a; huge_lia|]. split.
    + pose proof (twins_pair_b 1 t ltac:(huge_lia)) as Hb.
      replace (t =? LAST_PAIR) with false in Hb
        by (symmetry; apply Z.eqb_neq; lia).
      exact Hb.
    + right. split; [huge_lia|]. split; [reflexivity|]. split; [lia|].
      exists 1. split; [apply twins_nested_equal | lia].
Qed.




(** C10 -- the source is left unchanged.  A clone that returns has
    changed no slot that was allocated before the call, so every word of
    its argument is as before; a comparison that returns has changed no
    slot at all. *)
Theorem source_unchanged :
  (forall x (h h' : heap) c, intcpy x h = Val (c, h') ->
     forall a, is_Some (h !! a) -> h' !! a = h !! a) /\
  (forall x (h h' : heap) c, objcpy x h = Val (c, h') ->
     forall a, is_Some (h !! a) -> h' !! a = h !! a) /\
  (forall a b (h h' : heap) r, intcmp a b h = Val (r, h') -> h' = h) /\
  (forall d a b (h h' : heap) r, objcmp d a b h = Val (r, h') -> h' = h).
Proof.
  split; [|split; [|split]].
  - intros x h h' c H. apply (intcpy_frame x c h h' H).
  - intros x h h' c H. apply (objcpy_frame x c h h' H).
  - intros a b h h' r H. exact (read_only_intcmp a b h r h' H).
  - intros d a b h h' r H. exact (read_only_objcmp d a b h r h' H).
Qed.

Lemma source_unchanged_witness :
  flat_A_cloned !! 8 = flat_A !! 8 /\
  (forall h' r, intcmp 0 32 flat_A_cloned = Val (r, h') -> h' = flat_A_cloned).
Proof.
  split.
  - apply (proj1 source_unchanged 0 flat_A flat_A_cloned 32).
    + vm_compute. reflexivity.
    + exists (Word 1). vm_compute. reflexivity.
  - intros h' r. apply (proj1 (proj2 (proj2 source_unchanged))).
Defined.

(** * Further properties of the runtime *)

(** ** Flat-array comparison *)

(** X1 -- [intcmp] decides equality of contents.  On two well-formed
    flat arrays, the first of at most [INT_MAX] words, [intcmp] returns,
    leaves the heap as it is, and answers 1 exactly when the counts are
    equal and every payload slot of the one holds the word of the same
    slot of the other, and 0 otherwise. *)
Theorem intcmp_decides_equality (h : heap) a b n m :
  flat_array h a n -> flat_array h b m -> 1 + n <= INT_MAX ->
  (intcmp a b h = Val (1, h) <->
   n = m /\ forall i, 1 <= i <= n -> h !! idx a i = h !! idx b i) /\
  (intcmp a b h = Val (0, h) <->
   ~ (n = m /\ forall i, 1 <= i <= n -> h !! idx a i = h !! idx b i)).
Proof.
  intros Ha Hb Hmax.
  destruct (intcmp_decides a b n m h Ha Hb Hmax)
    as [(Hnm & Hsame & Hrun) | (Hdiff & Hrun)]; rewrite Hrun.
  - split; split.
    + intros _. split; assumption.
    + intros _. reflexivity.
    + intros H. discriminate.
    + intros H. exfalso. apply H. split; assumption.
  - assert (~ (n = m /\
               forall i, 1 <= i <= n -> h !! idx a i = h !! idx b i)) as Hnot.
    { intros [Hnm Hsame]. destruct Hdiff as [Hd | (i & Hi & Hd)].
      - exact (Hd Hnm).
      - exact (Hd (Hsame i Hi)). }
    split; split.
    + intros H. discriminate.
    + intros H. exfalso. exact (Hnot H).
    + intros _. exact Hnot.
    + intros _. reflexivity.
Qed.

Lemma flat_A_B_C_valid :
  flat_array flat_A_B_C 0 3 /\ flat_array flat_A_B_C 32 3 /\
  flat_array flat_A_B_C 64 3.
Proof.
  repeat split; try reflexivity; try lia;
    intros i Hi; cases_from i 1 3%nat; eexists; reflexivity.
Defined.

Lemma intcmp_decides_equality_witness :
  intcmp 0 64 flat_A_B_C = Val (0, flat_A_B_C).
Proof.
  apply (proj2 (intcmp_decides_equality flat_A_B_C 0 64 3 3
                  (proj1 flat_A_B_C_valid)
                  (proj2 (proj2 flat_A_B_C_valid))
                  ltac:(unfold INT_MAX; lia))).
  intros [_ Hsame]. specialize (Hsame 3 ltac:(lia)).
  vm_compute in Hsame. discriminate.
Defined.

(** X2 -- [intcmp] stops at the first mismatch.  With equal counts, if
    the slots before index [i] agree and slot [i] differs, [intcmp]
    answers 0 whatever follows slot [i]: the later slots need not even
    be allocated, and the count need not be one [int] can index as long
    as [i] is. *)
Theorem intcmp_first_mismatch (h : heap) a b n i x y :
  h !! a = Some (Word n) -> h !! b = Some (Word n) ->
  1 <= i <= n -> i <= INT_MAX ->
  (forall t, 1 <= t < i ->
     exists v, h !! idx a t = Some (Word v) /\ h !! idx b t = Some (Word v)) ->
  h !! idx a i = Some (Word x) -> h !! idx b i = Some (Word y) -> x <> y ->
  intcmp a b h = Val (0, h).
Proof.
  intros Ha Hb Hi Hmax Heq Hx Hy Hne.
  exact (intcmp_mismatch a b n i x y h Ha Hb Hi Hmax Heq Hx Hy Hne).
Qed.

Lemma intcmp_first_mismatch_witness :
  cut_short !! idx 32 3 = None /\
  intcmp 0 32 cut_short = Val (0, cut_short).
Proof.
  split; [reflexivity|].
  apply (intcmp_first_mismatch cut_short 0 32 3 2 2 9).
  - reflexivity.
  - reflexivity.
  - lia.
  - unfold INT_MAX. lia.
  - intros t Ht. assert (t = 1) as -> by lia. exists 1. split; reflexivity.
  - reflexivity.
  - reflexivity.
  - lia.
Defined.

(** X3 -- [intcmp] is transitive.  For well-formed flat arrays of at
    most [INT_MAX] words, if [intcmp a b] and [intcmp b c] answer 1 then
    so does [intcmp a c]. *)
Theorem intcmp_transitive (h : heap) a b c n m k :
  flat_array h a n -> flat_array h b m -> flat_array h c k ->
  1 + n <= INT_MAX ->
  intcmp a b h = Val (1, h) -> intcmp b c h = Val (1, h) ->
  intcmp a c h = Val (1, h).
Proof.
  intros Ha Hb Hc Hmax Hab Hbc.
  destruct (intcmp_decides a b n m h Ha Hb Hmax)
    as [(<- & Hsame1 & _) | (_ & Hrun)]; [|congruence].
  destruct (intcmp_decides b c n k h Hb Hc Hmax)
    as [(<- & Hsame2 & _) | (_ & Hrun)]; [|congruence].
  destruct Ha as (Ha & Hn & Hsa). destruct Hc as (Hc & _ & _).
  apply (intcmp_equal a c n h Ha Hc Hn Hmax).
  intros t Ht. destruct (Hsa t Ht) as [v Hv]. exists v.
  split; [exact Hv|]. rewrite <- Hsame2, <- Hsame1 by exact Ht. exact Hv.
Qed.

Lemma intcmp_transitive_witness :
  intcmp 0 0 flat_A_B_C = Val (1, flat_A_B_C).
Proof.
  apply (intcmp_transitive flat_A_B_C 0 32 0 3 3 3).
  - exact (proj1 flat_A_B_C_valid).
  - exact (proj1 (proj2 flat_A_B_C_valid)).
  - exact (proj1 flat_A_B_C_valid).
  - unfold INT_MAX. lia.
  - vm_compute. reflexivity.
  - vm_compute. reflexivity.
Defined.


(** ** The result of a comparison *)

Lemma returns_bool_bind {A} (m : M A) (k : A -> M Z) :
  (forall a, returns_bool (k a)) -> returns_bool (bind m k).
Proof.
  intros Hk h r h' H. apply bind_inv in H as (a & h1 & _ & H).
  exact (Hk a h1 r h' H).
Qed.

Lemma returns_bool_ret r : r = 0 \/ r = 1 -> returns_bool (ret r).
Proof. intros Hr h r' h' H. injection H as <- _. exact Hr. Qed.

Lemma returns_bool_out_of_fuel : returns_bool out_of_fuel.
Proof. intros h r h' H. discriminate. Qed.

Ltac by_bool :=
  repeat first
    [ apply returns_bool_out_of_fuel
    | apply returns_bool_ret; lia
    | assumption
    | apply returns_bool_bind; intros ?
    | match goal with
      | |- context [if ?c then _ else _] => destruct c
      end ].

Lemma returns_bool_intcmp_loop fuel : forall a b n i j,
  returns_bool (intcmp_loop fuel a b n i j).
Proof.
  induction fuel as [|fuel IH]; intros a b n i j; cbn [intcmp_loop].
  - by_bool.
  - by_bool. apply IH.
Qed.

Lemma returns_bool_objcmp_loop rec fuel : forall a b n i j,
  returns_bool (objcmp_loop rec fuel a b n i j).
Proof.
  induction fuel as [|fuel IH]; intros a b n i j; cbn [objcmp_loop].
  - by_bool.
  - by_bool. apply IH.
Qed.

(** X4 -- the comparisons answer with a C boolean.  Whenever [intcmp]
    or [objcmp] returns, on any arguments and any heap, the value is 0
    or 1. *)
Theorem compare_returns_boolean :
  (forall a b, returns_bool (intcmp a b)) /\
  (forall d a b, returns_bool (objcmp d a b)).
Proof.
  split.
  - intros a b. unfold intcmp. by_bool. apply returns_bool_intcmp_loop.
  - intros d a b. destruct d as [|d]; cbn [objcmp].
    + by_bool.
    + by_bool. apply returns_bool_objcmp_loop.
Qed.

(** ** Empty objects *)

(** X5 -- a count of zero, or a negative one, is an empty object.  When
    both headers hold the same count [n <= 0], [intcmp] and [objcmp]
    answer 1, and [intfill] and [objfill] return, all four without
    touching any slot but the headers: the heap is unchanged, and no
    payload slot needs to be allocated. *)
Theorem nonpositive_count_is_empty (h : heap) a b n :
  h !! a = Some (Word n) -> h !! b = Some (Word n) -> n <= 0 ->
  intcmp a b h = Val (1, h) /\
  (forall d, objcmp (S d) a b h = Val (1, h)) /\
  (forall v, intfill a v h = Val (tt, h)) /\
  (forall tag v, objfill a tag v h = Val (tt, h)).
Proof.
  intros Ha Hb Hn.
  assert (loop_fuel n = 1%nat) as Hfuel by (unfold loop_fuel; lia).
  assert ((0 <? n) = false) as Hlt by (apply Z.ltb_ge; lia).
  split; [|split; [|split]].
  - unfold intcmp. do 2 step_load. rewrite Z.eqb_refl. cbn [negb].
    rewrite Hfuel, intcmp_loop_S, Hlt. reflexivity.
  - intros d. rewrite objcmp_S. do 2 step_load. rewrite Z.eqb_refl.
    cbn [negb]. rewrite Hfuel, objcmp_loop_S, Hlt. reflexivity.
  - intros v. unfold intfill. rewrite idx_0. step_load.
    rewrite Hfuel, intfill_loop_S, Hlt. reflexivity.
  - intros tag v. unfold objfill. rewrite idx_0. step_load.
    rewrite Hfuel, objfill_loop_S, Hlt. reflexivity.
Qed.

Lemma nonpositive_count_is_empty_witness :
  intcmp 0 8 (heap_of [(0, [0]); (8, [0])])
  = Val (1, heap_of [(0, [0]); (8, [0])]).
Proof.
  apply (nonpositive_count_is_empty (heap_of [(0, [0]); (8, [0])]) 0 8 0).
  - reflexivity.
  - reflexivity.
  - lia.
Defined.

(** ** A clone is storage of its own *)

(** X6 -- a flat clone and its source are independent storage.  After
    [intcpy] of a well-formed flat array of at most [INT_MAX] words,
    filling the clone changes no word of the source, and filling the
    source changes no word of the clone, which keeps the words the
    source had when it was cloned. *)
Theorem flat_clone_is_independent (h : heap) x n v :
  flat_array h x n -> 1 + n <= INT_MAX ->
  exists c h1,
    intcpy x h = Val (c, h1) /\
    (exists h2,
       intfill c v h1 = Val (tt, h2) /\
       (forall i, 0 <= i <= n -> h2 !! idx x i = h !! idx x i) /\
       (forall i, 1 <= i <= n -> h2 !! idx c i = Some (Word v))) /\
    (exists h2,
       intfill x v h1 = Val (tt, h2) /\
       (forall i, 0 <= i <= n -> h2 !! idx c i = h !! idx x i) /\
       (forall i, 1 <= i <= n -> h2 !! idx x i = Some (Word v))).
Proof.
  intros Hobj Hmax. pose proof Hobj as (Hx & Hn & Hs).
  destruct (intcpy_ok x n h Hobj Hmax) as (h1 & Hrun & Hcopied & Hframe).
  assert (forall t, 0 <= t <= n -> exists w, h !! idx x t = Some (Word w))
    as Hall.
  { intros t Ht. destruct (Z.eq_dec t 0) as [-> | Hne].
    - exists n. rewrite idx_0. exact Hx.
    - apply Hs. lia. }
  assert (forall t i, 0 <= t <= n -> 0 <= i <= n ->
            idx x t <> idx (heap_top h) i) as Hdis.
  { intros t i Ht Hi. destruct (Hall t Ht) as [w Hw].
    apply old_slot_not_fresh; [exists (Word w); exact Hw | lia]. }
  assert (forall t, 0 <= t <= n -> h1 !! idx x t = h !! idx x t) as Hsrc.
  { intros t Ht. apply Hframe. intros i Hi. apply Hdis; assumption. }
  exists (heap_top h), h1. split; [exact Hrun|]. split.
  - destruct (intfill_ok (heap_top h) v n h1) as (h2 & Hfill & Hset & Hfr);
      try assumption.
    + rewrite <- (idx_0 (heap_top h)), Hcopied by lia. rewrite idx_0. exact Hx.
    + intros t Ht. rewrite Hcopied by lia.
      destruct (Hall t) as [w Hw]; [lia|]. exists (Word w). exact Hw.
    + exists h2. split; [exact Hfill|]. split; [|exact Hset].
      intros i Hi. rewrite Hfr; [apply Hsrc; exact Hi|].
      intros t Ht. apply Hdis; lia.
  - destruct (intfill_ok x v n h1) as (h2 & Hfill & Hset & Hfr);
      try assumption.
    + rewrite <- (idx_0 x), Hsrc by lia. rewrite idx_0. exact Hx.
    + intros t Ht. rewrite Hsrc by lia.
      destruct (Hall t) as [w Hw]; [lia|]. exists (Word w). exact Hw.
    + exists h2. split; [exact Hfill|]. split; [|exact Hset].
      intros i Hi. rewrite Hfr; [apply Hcopied; exact Hi|].
      intros t Ht. apply not_eq_sym. apply Hdis; lia.
Qed.

Lemma flat_A_valid : flat_array flat_A 0 3.
Proof.
  split; [reflexivity|]. split; [lia|].
  intros i Hi. cases_from i 1 3%nat; eexists; reflexivity.
Defined.

Lemma flat_clone_is_independent_witness :
  exists c h1,
    intcpy 0 flat_A = Val (c, h1) /\
    (exists h2,
       intfill c 9 h1 = Val (tt, h2) /\
       (forall i, 0 <= i <= 3 -> h2 !! idx 0 i = flat_A !! idx 0 i) /\
       (forall i, 1 <= i <= 3 -> h2 !! idx c i = Some (Word 9))) /\
    (exists h2,
       intfill 0 9 h1 = Val (tt, h2) /\
       (forall i, 0 <= i <= 3 -> h2 !! idx c i = flat_A !! idx 0 i) /\
       (forall i, 1 <= i <= 3 -> h2 !! idx 0 i = Some (Word 9))).
Proof.
  apply (flat_clone_is_independent flat_A 0 3 9).
  - exact flat_A_valid.
  - unfold INT_MAX. lia.
Defined.

(** X7 -- a tagged clone and its source are independent storage.  After
    [objcpy] of a well-formed tagged object of at most [INT_MAX] words,
    filling the clone changes no word of the source, and filling the
    source changes no word of the clone, which keeps the tags and
    payload words the source had when it was cloned. *)
Theorem tagged_clone_is_independent (h : heap) x n tag v :
  tagged_object h x n -> 1 + 2 * n <= INT_MAX ->
  exists c h1,
    objcpy x h = Val (c, h1) /\
    (exists h2,
       objfill c tag v h1 = Val (tt, h2) /\
       (forall i, 0 <= i <= 2 * n -> h2 !! idx x i = h !! idx x i) /\
       (forall i, 0 <= i < n -> pair_slots h2 c i tag v)) /\
    (exists h2,
       objfill x tag v h1 = Val (tt, h2) /\
       (forall i, 0 <= i <= 2 * n -> h2 !! idx c i = h !! idx x i) /\
       (forall i, 0 <= i < n -> pair_slots h2 x i tag v)).
Proof.
  intros Hobj Hmax. pose proof Hobj as (Hx & Hn & Hs).
  destruct (objcpy_ok x n h Hobj Hmax) as (h1 & Hrun & Hcopied & Hframe).
  assert (forall t, 0 <= t <= 2 * n ->
            exists w, h !! idx x t = Some (Word w)) as Hall.
  { intros t Ht. destruct (Z.eq_dec t 0) as [-> | Hne].
    - exists n. rewrite idx_0. exact Hx.
    - apply Hs. lia. }
  assert (forall t i, 0 <= t <= 2 * n -> 0 <= i <= 2 * n ->
            idx x t <> idx (heap_top h) i) as Hdis.
  { intros t i Ht Hi. destruct (Hall t Ht) as [w Hw].
    apply old_slot_not_fresh; [exists (Word w); exact Hw | lia]. }
  assert (forall t, 0 <= t <= 2 * n -> h1 !! idx x t = h !! idx x t) as Hsrc.
  { intros t Ht. apply Hframe. intros i Hi. apply Hdis; assumption. }
  exists (heap_top h), h1. split; [exact Hrun|]. split.
  - destruct (objfill_ok (heap_top h) tag v n h1)
      as (h2 & Hfill & Hset & Hfr); try assumption.
    + rewrite <- (idx_0 (heap_top h)), Hcopied by lia. rewrite idx_0. exact Hx.
    + intros t Ht. rewrite Hcopied by lia.
      destruct (Hall t) as [w Hw]; [lia|]. exists (Word w). exact Hw.
    + exists h2. split; [exact Hfill|]. split; [|exact Hset].
      intros i Hi. rewrite Hfr; [apply Hsrc; exact Hi|].
      intros t Ht. apply Hdis; lia.
  - destruct (objfill_ok x tag v n h1) as (h2 & Hfill & Hset & Hfr);
      try assumption.
    + rewrite <- (idx_0 x), Hsrc by lia. rewrite idx_0. exact Hx.
    + intros t Ht. rewrite Hsrc by lia.
      destruct (Hall t) as [w Hw]; [lia|]. exists (Word w). exact Hw.
    + exists h2. split; [exact Hfill|]. split; [|exact Hset].
      intros i Hi. rewrite Hfr; [apply Hcopied; exact Hi|].
      intros t Ht. apply not_eq_sym. apply Hdis; lia.
Qed.

Lemma nested_heap_valid : tagged_object nested_heap 0 1.
Proof.
  split; [reflexivity|]. split; [lia|].
  intros i Hi. cases_from i 1 2%nat; eexists; reflexivity.
Defined.

Lemma tagged_clone_is_independent_witness :
  exists c h1,
    objcpy 0 nested_heap = Val (c, h1) /\
    (exists h2,
       objfill c 0 9 h1 = Val (tt, h2) /\
       (forall i, 0 <= i <= 2 * 1 -> h2 !! idx 0 i = nested_heap !! idx 0 i) /\
       (forall i, 0 <= i < 1 -> pair_slots h2 c i 0 9)) /\
    (exists h2,
       objfill 0 0 9 h1 = Val (tt, h2) /\
       (forall i, 0 <= i <= 2 * 1 -> h2 !! idx c i = nested_heap !! idx 0 i) /\
       (forall i, 0 <= i < 1 -> pair_slots h2 0 i 0 9)).
Proof.
  apply (tagged_clone_is_independent nested_heap 0 1 0 9).
  - exact nested_heap_valid.
  - unfold INT_MAX. lia.
Defined.

(** ** Fills compose *)

Lemma slot_or_not a lo hi k :
  (exists i, lo <= i <= hi /\ k = idx a i) \/
  (forall i, lo <= i <= hi -> k <> idx a i).
Proof.
  destruct (Z.eq_dec k (idx a ((k - a) / WORD))) as [E | E].
  - destruct (Z_le_dec lo ((k - a) / WORD)) as [Hlo | Hlo].
    + destruct (Z_le_dec ((k - a) / WORD) hi) as [Hhi | Hhi].
      * left. exists ((k - a) / WORD). split; [lia | exact E].
      * right. intros i Hi ->. apply Hhi.
        replace (idx a i - a) with (i * WORD) by (unfold idx; lia).
        rewrite Z.div_mul by (unfold WORD; lia). lia.
    + right. intros i Hi ->. apply Hlo.
      replace (idx a i - a) with (i * WORD) by (unfold idx; lia).
      rewrite Z.div_mul by (unfold WORD; lia). lia.
  - right. intros i Hi ->. apply E.
    replace (idx a i - a) with (i * WORD) by (unfold idx; lia).
    rewrite Z.div_mul by (unfold WORD; lia). reflexivity.
Qed.

Lemma header_not_slot a i : 1 <= i -> a <> idx a i.
Proof. unfold idx, WORD. lia. Qed.

(** X8 -- the last fill wins.  On storage for a flat array of at most
    [INT_MAX] words, [intfill] with [v] followed by [intfill] with [w]
    leaves exactly the heap that [intfill] with [w] alone leaves; the
    same holds of [objfill] on storage for a tagged object.  With
    [v = w]: filling twice is filling once. *)
Theorem last_fill_wins (h : heap) a n :
  (flat_storage h a n -> 1 + n <= INT_MAX ->
   forall v w, exists h1 h2,
     intfill a v h = Val (tt, h1) /\ intfill a w h1 = Val (tt, h2) /\
     intfill a w h = Val (tt, h2)) /\
  (tagged_storage h a n -> 1 + 2 * n <= INT_MAX ->
   forall t v t' w, exists h1 h2,
     objfill a t v h = Val (tt, h1) /\ objfill a t' w h1 = Val (tt, h2) /\
     objfill a t' w h = Val (tt, h2)).
Proof.
  split.
  - intros (Ha & Hn & Hs) Hmax v w.
    destruct (intfill_ok a v n h Ha Hn Hmax Hs) as (h1 & Hrun1 & Hset1 & Hfr1).
    assert (h1 !! a = Some (Word n)) as Ha1.
    { rewrite Hfr1; [exact Ha|]. intros i Hi. apply header_not_slot. lia. }
    destruct (intfill_ok a w n h1 Ha1 Hn Hmax) as (h2 & Hrun2 & Hset2 & Hfr2).
    { intros i Hi. rewrite Hset1 by exact Hi. eauto. }
    destruct (intfill_ok a w n h Ha Hn Hmax Hs) as (h3 & Hrun3 & Hset3 & Hfr3).
    exists h1, h2. split; [exact Hrun1|]. split; [exact Hrun2|].
    rewrite Hrun3. f_equal. f_equal. apply map_eq. intros k.
    destruct (slot_or_not a 1 n k) as [(i & Hi & ->) | Hk].
    + rewrite Hset2, Hset3 by exact Hi. reflexivity.
    + rewrite Hfr2, Hfr3, Hfr1 by exact Hk. reflexivity.
  - intros (Ha & Hn & Hs) Hmax t v t' w.
    destruct (objfill_ok a t v n h Ha Hn Hmax Hs)
      as (h1 & Hrun1 & Hset1 & Hfr1).
    assert (h1 !! a = Some (Word n)) as Ha1.
    { rewrite Hfr1; [exact Ha|]. intros i Hi. apply header_not_slot. lia. }
    assert (forall s, 1 <= s <= 2 * n ->
              exists p, 0 <= p < n /\ (s = 2 * p + 1 \/ s = 2 * p + 2))
      as Hpair.
    { intros s Hs'. exists ((s - 1) / 2).
      pose proof (Z.div_mod (s - 1) 2 ltac:(lia)) as Hdm.
      pose proof (Z.mod_pos_bound (s - 1) 2 ltac:(lia)) as Hmod.
      split; lia. }
    destruct (objfill_ok a t' w n h1 Ha1 Hn Hmax)
      as (h2 & Hrun2 & Hset2 & Hfr2).
    { intros s Hs'. destruct (Hpair s Hs') as (p & Hp & [-> | ->]);
        destruct (Hset1 p Hp) as [H1 H2]; eauto. }
    destruct (objfill_ok a t' w n h Ha Hn Hmax Hs)
      as (h3 & Hrun3 & Hset3 & Hfr3).
    exists h1, h2. split; [exact Hrun1|]. split; [exact Hrun2|].
    rewrite Hrun3. f_equal. f_equal. apply map_eq. intros k.
    destruct (slot_or_not a 1 (2 * n) k) as [(s & Hs' & ->) | Hk].
    + destruct (Hpair s Hs') as (p & Hp & [-> | ->]);
        destruct (Hset2 p Hp) as [H1 H2]; destruct (Hset3 p Hp) as [H3 H4];
        congruence.
    + rewrite Hfr2, Hfr3, Hfr1 by exact Hk. reflexivity.
Qed.

Lemma two_arrays_storage :
  flat_storage two_arrays 0 2 /\ flat_storage two_arrays 24 2.
Proof.
  repeat split; try reflexivity; try lia;
    intros i Hi; cases_from i 1 2%nat; eexists; reflexivity.
Defined.

Lemma two_objects_storage :
  tagged_storage two_objects 0 1 /\ tagged_storage two_objects 24 1.
Proof.
  repeat split; try reflexivity; try lia;
    intros i Hi; cases_from i 1 2%nat; eexists; reflexivity.
Defined.

Lemma last_fill_wins_witness :
  (exists h1 h2,
     intfill 0 7 two_arrays = Val (tt, h1) /\ intfill 0 9 h1 = Val (tt, h2) /\
     intfill 0 9 two_arrays = Val (tt, h2)) /\
  (exists h1 h2,
     objfill 0 3 7 two_objects = Val (tt, h1) /\
     objfill 0 0 9 h1 = Val (tt, h2) /\
     objfill 0 0 9 two_objects = Val (tt, h2)).
Proof.
  split.
  - apply (proj1 (last_fill_wins two_arrays 0 2)).
    + exact (proj1 two_arrays_storage).
    + unfold INT_MAX. lia.
  - apply (proj2 (last_fill_wins two_objects 0 1)).
    + exact (proj1 two_objects_storage).
    + unfold INT_MAX. lia.
Defined.

(** X9 -- comparing filled flat arrays.  Two disjoint flat arrays of
    the same count, of at most [INT_MAX] words, whose slots need not have
    been written before, compare equal after both were filled with the
    same value, and unequal after they were filled with different values
    unless they are empty. *)
Theorem filled_arrays_compare (h : heap) a b n v w :
  flat_storage h a n -> flat_storage h b n -> 1 + n <= INT_MAX ->
  (forall i j, 0 <= i <= n -> 0 <= j <= n -> idx a i <> idx b j) ->
  exists h1 h2,
    intfill a v h = Val (tt, h1) /\ intfill b w h1 = Val (tt, h2) /\
    (v = w -> intcmp a b h2 = Val (1, h2)) /\
    (v <> w -> 1 <= n -> intcmp a b h2 = Val (0, h2)).
Proof.
  intros (Ha & Hn & Hsa) (Hb & _ & Hsb) Hmax Hdis.
  destruct (intfill_ok a v n h Ha Hn Hmax Hsa) as (h1 & Hrun1 & Hset1 & Hfr1).
  assert (forall j, 0 <= j <= n -> h1 !! idx b j = h !! idx b j) as Hb1.
  { intros j Hj. apply Hfr1. intros i Hi. apply not_eq_sym. apply Hdis; lia. }
  destruct (intfill_ok b w n h1) as (h2 & Hrun2 & Hset2 & Hfr2);
    try assumption.
  { rewrite <- (idx_0 b), Hb1 by lia. rewrite idx_0. exact Hb. }
  { intros j Hj. rewrite Hb1 by lia. apply Hsb. exact Hj. }
  assert (h2 !! a = Some (Word n)) as Ha2.
  { rewrite Hfr2, Hfr1; [exact Ha| |].
    - intros i Hi. apply header_not_slot. lia.
    - intros j Hj. rewrite <- (idx_0 a) at 1. apply Hdis; lia. }
  assert (h2 !! b = Some (Word n)) as Hb2.
  { rewrite Hfr2.
    - rewrite <- (idx_0 b), Hb1 by lia. rewrite idx_0. exact Hb.
    - intros j Hj. apply header_not_slot. lia. }
  assert (forall i, 1 <= i <= n -> h2 !! idx a i = Some (Word v)) as Hva.
  { intros i Hi. rewrite Hfr2; [apply Hset1; exact Hi|].
    intros j Hj. apply Hdis; lia. }
  exists h1, h2. split; [exact Hrun1|]. split; [exact Hrun2|]. split.
  - intros <-. apply (intcmp_equal a b n h2 Ha2 Hb2 Hn Hmax).
    intros t Ht. exists v. split; [apply Hva | apply Hset2]; exact Ht.
  - intros Hne Hn1.
    apply (intcmp_mismatch a b n 1 v w h2 Ha2 Hb2).
    + lia.
    + unfold INT_MAX. lia.
    + intros t Ht. exfalso. lia.
    + apply Hva. lia.
    + apply Hset2. lia.
    + exact Hne.
Qed.

Lemma two_arrays_disjoint :
  forall i j, 0 <= i <= 2 -> 0 <= j <= 2 -> idx 0 i <> idx 24 j.
Proof. intros i j Hi Hj. unfold idx, WORD. lia. Defined.

Lemma filled_arrays_compare_witness :
  exists h1 h2,
    intfill 0 7 two_arrays = Val (tt, h1) /\
    intfill 24 7 h1 = Val (tt, h2) /\
    (7 = 7 -> intcmp 0 24 h2 = Val (1, h2)) /\
    (7 <> 7 -> 1 <= 2 -> intcmp 0 24 h2 = Val (0, h2)).
Proof.
  apply (filled_arrays_compare two_arrays 0 24 2 7 7).
  - exact (proj1 two_arrays_storage).
  - exact (proj2 two_arrays_storage).
  - unfold INT_MAX. lia.
  - exact two_arrays_disjoint.
Defined.

(** X10 -- comparing filled tagged objects.  Two disjoint tagged
    objects of the same count, of at most [INT_MAX] words, compare equal
    after both were filled with the same payload value, whatever the two
    tags; after fills with different payload values they compare unequal
    when the tags differ or the first tag is 0, unless they are empty. *)
Theorem filled_objects_compare (h : heap) a b n t v t' w :
  tagged_storage h a n -> tagged_storage h b n -> 1 + 2 * n <= INT_MAX ->
  (forall i j, 0 <= i <= 2 * n -> 0 <= j <= 2 * n -> idx a i <> idx b j) ->
  exists h1 h2,
    objfill a t v h = Val (tt, h1) /\ objfill b t' w h1 = Val (tt, h2) /\
    (v = w -> forall d, objcmp (S d) a b h2 = Val (1, h2)) /\
    (v <> w -> t <> t' \/ t = 0 -> 1 <= n ->
     forall d, objcmp (S d) a b h2 = Val (0, h2)).
Proof.
  intros (Ha & Hn & Hsa) (Hb & _ & Hsb) Hmax Hdis.
  destruct (objfill_ok a t v n h Ha Hn Hmax Hsa)
    as (h1 & Hrun1 & Hset1 & Hfr1).
  assert (forall j, 0 <= j <= 2 * n -> h1 !! idx b j = h !! idx b j) as Hb1.
  { intros j Hj. apply Hfr1. intros i Hi. apply not_eq_sym. apply Hdis; lia. }
  destruct (objfill_ok b t' w n h1) as (h2 & Hrun2 & Hset2 & Hfr2);
    try assumption.
  { rewrite <- (idx_0 b), Hb1 by lia. rewrite idx_0. exact Hb. }
  { intros j Hj. rewrite Hb1 by lia. apply Hsb. exact Hj. }
  assert (h2 !! a = Some (Word n)) as Ha2.
  { rewrite Hfr2, Hfr1; [exact Ha| |].
    - intros i Hi. apply header_not_slot. lia.
    - intros j Hj. rewrite <- (idx_0 a) at 1. apply Hdis; lia. }
  assert (h2 !! b = Some (Word n)) as Hb2.
  { rewrite Hfr2.
    - rewrite <- (idx_0 b), Hb1 by lia. rewrite idx_0. exact Hb.
    - intros j Hj. apply header_not_slot. lia. }
  assert (forall i, 0 <= i < n -> pair_slots h2 a i t v) as Hva.
  { intros i Hi. destruct (Hset1 i Hi) as [H1 H2]. split.
    - rewrite Hfr2; [exact H1|]. intros j Hj. apply Hdis; lia.
    - rewrite Hfr2; [exact H2|]. intros j Hj. apply Hdis; lia. }
  exists h1, h2. split; [exact Hrun1|]. split; [exact Hrun2|]. split.
  - intros <- d. apply (objcmp_all_pass d a b n h2 Ha2 Hb2 Hmax).
    intros i Hi. apply (same_payload_passes _ h2 a b i t t' v).
    + apply Hva. exact Hi.
    + apply Hset2. exact Hi.
  - intros Hne Htags Hn1 d.
    apply (objcmp_first_failure d a b n 0 h2 Ha2 Hb2 Hmax); [lia| |].
    + intros i Hi. lia.
    + exists t, v, t', w. split; [apply Hva; lia|].
      split; [apply Hset2; lia|]. split; [exact Hne|]. left. exact Htags.
Qed.

Lemma two_objects_disjoint :
  forall i j, 0 <= i <= 2 * 1 -> 0 <= j <= 2 * 1 -> idx 0 i <> idx 24 j.
Proof. intros i j Hi Hj. unfold idx, WORD. lia. Defined.

Lemma filled_objects_compare_witness :
  exists h1 h2,
    objfill 0 1 7 two_objects = Val (tt, h1) /\
    objfill 24 2 7 h1 = Val (tt, h2) /\
    (7 = 7 -> forall d, objcmp (S d) 0 24 h2 = Val (1, h2)) /\
    (7 <> 7 -> 1 <> 2 \/ 1 = 0 -> 1 <= 1 ->
     forall d, objcmp (S d) 0 24 h2 = Val (0, h2)).
Proof.
  apply (filled_objects_compare two_objects 0 24 1 1 7 2 7).
  - exact (proj1 two_objects_storage).
  - exact (proj2 two_objects_storage).
  - unfold INT_MAX. lia.
  - exact two_objects_disjoint.
Defined.

(** ** More on the tagged-object comparison *)

(** X11 -- objects of scalars compare by payload.  When every tag of
    the first of two well-formed tagged objects of equal count, of at
    most [INT_MAX] words, is 0, [objcmp] answers 1 exactly when the
    payload words agree pair by pair and 0 otherwise, at every recursion
    depth and whatever the tags of the second object: no nested
    comparison is made. *)
Theorem scalar_objects_compare_by_payload (h : heap) a b n :
  tagged_object h a n -> tagged_object h b n -> 1 + 2 * n <= INT_MAX ->
  (forall t, 0 <= t < n -> h !! idx a (2 * t + 1) = Some (Word 0)) ->
  forall d,
    (objcmp (S d) a b h = Val (1, h) <->
     forall t, 0 <= t < n -> h !! idx a (2 * t + 2) = h !! idx b (2 * t + 2)) /\
    (objcmp (S d) a b h = Val (0, h) <->
     ~ forall t, 0 <= t < n ->
         h !! idx a (2 * t + 2) = h !! idx b (2 * t + 2)).
Proof.
  intros Hoa Hob Hmax Htags d.
  pose proof Hoa as (Ha & Hn & Hsa). pose proof Hob as (Hb & _ & Hsb).
  assert (exists k : nat, Z.of_nat k = n) as [k Hk].
  { exists (Z.to_nat n). lia. }
  assert (forall t, 0 <= t < n ->
            h !! idx a (2 * t + 2) = h !! idx b (2 * t + 2) ->
            pair_passes (objcmp d) h a b t) as Hpass.
  { intros t Ht E.
    destruct (tagged_object_pair h a n t Hoa Ht) as (t1 & p1 & Hp1).
    destruct (tagged_object_pair h b n t Hob Ht) as (t2 & p2 & Hp2).
    assert (p1 = p2) as ->.
    { destruct Hp1 as [_ H1]. destruct Hp2 as [_ H2]. congruence. }
    eapply same_payload_passes; eassumption. }
  destruct (first_failure
              (fun t => h !! idx a (2 * t + 2) = h !! idx b (2 * t + 2)) k)
    as [Hall | (i & Hi & Hni & Hbefore)].
  - intros t Ht.
    destruct (Hsa (2 * t + 2)) as [x Hx]; [lia|].
    destruct (Hsb (2 * t + 2)) as [y Hy]; [lia|].
    rewrite Hx, Hy. destruct (Z.eq_dec x y) as [-> | Hne].
    + left. reflexivity.
    + right. congruence.
  - rewrite Hk in Hall.
    rewrite (objcmp_all_pass d a b n h Ha Hb Hmax)
      by (intros t Ht; apply Hpass; auto).
    split; split.
    + intros _. exact Hall.
    + intros _. reflexivity.
    + intros H. discriminate.
    + intros H. exfalso. exact (H Hall).
  - rewrite Hk in Hi.
    assert (pair_fails (objcmp d) h a b i) as Hfail.
    { destruct (tagged_object_pair h a n i Hoa Hi) as (t1 & p1 & Hp1).
      destruct (tagged_object_pair h b n i Hob Hi) as (t2 & p2 & Hp2).
      assert (t1 = 0) as ->.
      { destruct Hp1 as [H1 _]. rewrite (Htags i Hi) in H1. congruence. }
      exists 0, p1, t2, p2. split; [exact Hp1|]. split; [exact Hp2|].
      split.
      - intros ->. apply Hni. destruct Hp1 as [_ H1]. destruct Hp2 as [_ H2].
        rewrite H1, H2. reflexivity.
      - left. right. reflexivity. }
    assert (forall t, 0 <= t < i -> pair_passes (objcmp d) h a b t)
      as Hprefix.
    { intros t Ht. apply Hpass; [lia | apply Hbefore; lia]. }
    rewrite (objcmp_first_failure d a b n i h Ha Hb Hmax Hi Hprefix Hfail).
    split; split.
    + intros H. discriminate.
    + intros H. exfalso. apply Hni. apply H. exact Hi.
    + intros _ H. apply Hni. apply H. exact Hi.
    + intros _. reflexivity.
Qed.

Lemma tagged_A_B_valid :
  tagged_object tagged_A_B 0 1 /\ tagged_object tagged_A_B 24 1.
Proof.
  repeat split; try reflexivity; try lia;
    intros i Hi; cases_from i 1 2%nat; eexists; reflexivity.
Defined.

Lemma scalar_objects_compare_by_payload_witness :
  objcmp 1 0 24 tagged_A_B = Val (0, tagged_A_B).
Proof.
  apply (proj2 (scalar_objects_compare_by_payload tagged_A_B 0 24 1
                  (proj1 tagged_A_B_valid) (proj2 tagged_A_B_valid)
                  ltac:(unfold INT_MAX; lia)
                  ltac:(intros t Ht; assert (t = 0) as -> by lia; reflexivity)
                  0%nat)).
  intros H. specialize (H 0 ltac:(lia)). vm_compute in H. discriminate.
Defined.

(** X12 -- no guard against cycles.  When the first pair of each of
    two distinct objects of equal count carries the same nonzero tag and
    points back to the object itself, [objcmp] calls itself on the same
    two objects again: at no recursion depth does it return. *)
Theorem objcmp_diverges_on_cycle (h : heap) a b n t :
  h !! a = Some (Word n) -> h !! b = Some (Word n) -> 1 <= n ->
  pair_slots h a 0 t a -> pair_slots h b 0 t b -> t <> 0 -> a <> b ->
  forall d, objcmp d a b h = OutOfFuel.
Proof. exact (objcmp_self_reference h a b n t). Qed.

Lemma objcmp_diverges_on_cycle_witness :
  objcmp 50 0 24 cyclic_heap = OutOfFuel.
Proof.
  apply (objcmp_diverges_on_cycle cyclic_heap 0 24 1 7).
  - reflexivity.
  - reflexivity.
  - lia.
  - split; reflexivity.
  - split; reflexivity.
  - lia.
  - lia.
Defined.

(** X13 -- the tagged comparison is not transitive.  Equal payload
    words pass without a look at the tags, so with one-pair objects [a]
    of pair (0, p), [b] of pair (t, p) and [c] of pair (t, q), where [t]
    is nonzero and the distinct objects at [p] and [q] compare equal,
    [objcmp] answers 1 on [a], [b] and on [b], [c], and 0 on [a], [c]. *)
Theorem objcmp_not_transitive (h : heap) a b c p q t d :
  h !! a = Some (Word 1) -> h !! b = Some (Word 1) ->
  h !! c = Some (Word 1) ->
  pair_slots h a 0 0 p -> pair_slots h b 0 t p -> pair_slots h c 0 t q ->
  t <> 0 -> p <> q -> objcmp d p q h = Val (1, h) ->
  objcmp (S d) a b h = Val (1, h) /\
  objcmp (S d) b c h = Val (1, h) /\
  objcmp (S d) a c h = Val (0, h).
Proof.
  intros Ha Hb Hc Hpa Hpb Hpc Ht Hpq Hnested.
  assert (1 + 2 * 1 <= INT_MAX) as Hmax by (unfold INT_MAX; lia).
  split; [|split].
  - apply (objcmp_all_pass d a b 1 h Ha Hb Hmax).
    intros i Hi. assert (i = 0) as -> by lia.
    eapply same_payload_passes; eassumption.
  - apply (objcmp_all_pass d b c 1 h Hb Hc Hmax).
    intros i Hi. assert (i = 0) as -> by lia.
    exists t, p, t, q. split; [exact Hpb|]. split; [exact Hpc|].
    right. split; [exact Hpq|]. split; [reflexivity|]. split; [exact Ht|].
    exists 1. split; [exact Hnested | lia].
  - apply (objcmp_first_failure d a c 1 0 h Ha Hc Hmax ltac:(lia)).
    + intros i Hi. lia.
    + exists 0, p, t, q. split; [exact Hpa|]. split; [exact Hpc|].
      split; [exact Hpq|]. left. right. reflexivity.
Qed.

Lemma objcmp_not_transitive_witness :
  objcmp 2 0 24 three_objects = Val (1, three_objects) /\
  objcmp 2 24 96 three_objects = Val (1, three_objects) /\
  objcmp 2 0 96 three_objects = Val (0, three_objects).
Proof.
  apply (objcmp_not_transitive three_objects 0 24 96 48 72 7 1).
  - reflexivity.
  - reflexivity.
  - reflexivity.
  - split; reflexivity.
  - split; reflexivity.
  - split; reflexivity.
  - lia.
  - lia.
  - vm_compute. reflexivity.
Defined.

(** ** What a clone allocates *)

(** X15 -- a clone allocates its own words and nothing else.  After
    [intcpy] of a well-formed flat array of at most [INT_MAX] words the
    allocated slots are those allocated before and the 1 + n slots of
    the clone, which were not allocated before; likewise the 1 + 2n
    slots after [objcpy] of a tagged object. *)
Theorem clone_allocates_its_words (h : heap) x n :
  (flat_array h x n -> 1 + n <= INT_MAX ->
   exists c h',
     intcpy x h = Val (c, h') /\
     (forall t, 0 <= t <= n -> h !! idx c t = None) /\
     (forall a, is_Some (h' !! a) <->
        is_Some (h !! a) \/ exists t, 0 <= t <= n /\ a = idx c t)) /\
  (tagged_object h x n -> 1 + 2 * n <= INT_MAX ->
   exists c h',
     objcpy x h = Val (c, h') /\
     (forall t, 0 <= t <= 2 * n -> h !! idx c t = None) /\
     (forall a, is_Some (h' !! a) <->
        is_Some (h !! a) \/ exists t, 0 <= t <= 2 * n /\ a = idx c t)).
Proof.
  split.
  - intros Hobj Hmax. pose proof Hobj as (Hx & Hn & Hs).
    destruct (intcpy_ok x n h Hobj Hmax) as (h' & Hrun & Hcopied & Hframe).
    exists (heap_top h), h'. split; [exact Hrun|]. split.
    + intros t Ht. apply heap_top_fresh. lia.
    + intros a. destruct (slot_or_not (heap_top h) 0 n a)
        as [(t & Ht & ->) | Hout].
      * split; [intros _; right; exists t; auto|]. intros _.
        rewrite Hcopied by exact Ht.
        destruct (Z.eq_dec t 0) as [-> | Hne].
        -- rewrite idx_0. eauto.
        -- destruct (Hs t) as [v Hv]; [lia|]. eauto.
      * rewrite (Hframe a Hout). split; [intros H; left; exact H|].
        intros [H | (t & Ht & ->)]; [exact H|].
        exfalso. exact (Hout t Ht eq_refl).
  - intros Hobj Hmax. pose proof Hobj as (Hx & Hn & Hs).
    destruct (objcpy_ok x n h Hobj Hmax) as (h' & Hrun & Hcopied & Hframe).
    exists (heap_top h), h'. split; [exact Hrun|]. split.
    + intros t Ht. apply heap_top_fresh. lia.
    + intros a. destruct (slot_or_not (heap_top h) 0 (2 * n) a)
        as [(t & Ht & ->) | Hout].
      * split; [intros _; right; exists t; auto|]. intros _.
        rewrite Hcopied by exact Ht.
        destruct (Z.eq_dec t 0) as [-> | Hne].
        -- rewrite idx_0. eauto.
        -- destruct (Hs t) as [v Hv]; [lia|]. eauto.
      * rewrite (Hframe a Hout). split; [intros H; left; exact H|].
        intros [H | (t & Ht & ->)]; [exact H|].
        exfalso. exact (Hout t Ht eq_refl).
Qed.

Lemma clone_allocates_its_words_witness :
  (exists c h',
     intcpy 0 flat_A = Val (c, h') /\
     (forall t, 0 <= t <= 3 -> flat_A !! idx c t = None) /\
     (forall a, is_Some (h' !! a) <->
        is_Some (flat_A !! a) \/ exists t, 0 <= t <= 3 /\ a = idx c t)) /\
  (exists c h',
     objcpy 0 nested_heap = Val (c, h') /\
     (forall t, 0 <= t <= 2 * 1 -> nested_heap !! idx c t = None) /\
     (forall a, is_Some (h' !! a) <->
        is_Some (nested_heap !! a) \/
        exists t, 0 <= t <= 2 * 1 /\ a = idx c t)).
Proof.
  split.
  - apply (proj1 (clone_allocates_its_words flat_A 0 3)).
    + exact flat_A_valid.
    + unfold INT_MAX. lia.
  - apply (proj2 (clone_allocates_its_words nested_heap 0 1)).
    + exact nested_heap_valid.
    + unfold INT_MAX. lia.
Defined.
